(** * The LLB bridge of the build engine: result proxies, the cache-manager
      registry, lazy cache managers and the executor bridge.

    Shallow embedding of
    [vendor/github.com/moby/buildkit/solver/llbsolver/bridge.go].

    Go values are modelled as follows.
    - An interface or pointer value that may be [nil] is an [option].
    - A pair [(T, error)] returned by a Go function is a pair
      [T * option error]; [None] is the [nil] error.
    - Objects with identity (results, managers, error objects) are named by a
      number; mutable fields live in explicit state records.
    - A call can return, panic (nil dereference, index out of range) or block
      on a channel: see [go].
    - A method runs atomically where it holds a lock.  [resultProxy.Result]
      holds its lock twice, around the evaluation: the [Release] calls other
      goroutines complete in between are arguments of [Result_with]. *)

From Stdlib Require Import ZArith.
From stdpp Require Import base option list gmap strings pretty.

Local Open Scope string_scope.
Local Open Scope list_scope.

(** ** Outcomes of a Go call *)

Inductive go (A : Type) : Type :=
| Returns (a : A)
| Panics
| Blocks.
Arguments Returns {A} a.
Arguments Panics {A}.
Arguments Blocks {A}.

Definition go_map {A B : Type} (f : A → B) (x : go A) : go B :=
  match x with
  | Returns a => Returns (f a)
  | Panics => Panics
  | Blocks => Blocks
  end.

(** A solver result ([solver.Result], [solver.CachedResult]) is an object with
    identity; only its identity matters here. *)
Definition Ref := nat.

(** ** Errors *)

Module errdefs.

Definition Digest := string.

(** [pb.Range], [pb.SourceInfo] and [errdefs.Source]. *)
Record Range := mkRange {
  StartLine : Z; StartCharacter : Z; EndLine : Z; EndCharacter : Z }.

Record SourceInfo := mkSourceInfo { Filename : string; Data : string }.

Record Source := mkSource { Info : SourceInfo; Ranges : list Range }.

(** Go errors form a chain through [Unwrap].  The constructors are the error
    types the bridge creates or inspects:
    - [Errorf] : [errors.Errorf], a leaf carrying a message;
    - [Wrap] : [errors.Wrap] and [errors.Wrapf];
    - [Canceled] : [context.Canceled];
    - [VertexError] : [*errdefs.VertexError], naming a graph node;
    - [ExecError] : [*llberrdefs.ExecError]; [ptr] is the identity of the
      error object (its [OwnerBorrowed] flag lives in the state, see
      [World]) and [refs] is the sequence of results that [EachRef] passes
      to its callback;
    - [ErrorSource] : the error [errdefs.WithSource] returns. *)
Inductive error : Type :=
| Errorf (msg : string)
| Wrap (cause : error) (msg : string)
| Canceled
| VertexError (dgst : Digest) (cause : error)
| ExecError (ptr : nat) (refs : list Ref) (cause : error)
| ErrorSource (src : Source) (cause : error).

(** [err.Error()], used by the [%v] verb. *)
Fixpoint Error (e : error) : string :=
  match e with
  | Errorf msg => msg
  | Wrap cause msg => msg +:+ ": " +:+ Error cause
  | Canceled => "context canceled"
  | VertexError _ cause => Error cause
  | ExecError _ _ cause => Error cause
  | ErrorSource _ cause => Error cause
  end.

(** [errors.As(err, &ve)] for [ve : *errdefs.VertexError]: the first vertex
    error of the chain. *)
Fixpoint asVertexError (e : error) : option Digest :=
  match e with
  | Errorf _ => None
  | Wrap cause _ => asVertexError cause
  | Canceled => None
  | VertexError dgst _ => Some dgst
  | ExecError _ _ cause => asVertexError cause
  | ErrorSource _ cause => asVertexError cause
  end.

(** [errors.As(err, &ee)] for [ee : *llberrdefs.ExecError]. *)
Fixpoint asExecError (e : error) : option (nat * list Ref) :=
  match e with
  | Errorf _ => None
  | Wrap cause _ => asExecError cause
  | Canceled => None
  | VertexError _ cause => asExecError cause
  | ExecError ptr refs _ => Some (ptr, refs)
  | ErrorSource _ cause => asExecError cause
  end.

(** Modelled from the spec: [errdefs.WithSource] (package [solver/errdefs],
    outside the files embedded here) attaches one original-source location
    to an error; the annotated error still unwraps to the error it
    annotates, so the failing node stays identifiable. *)
Definition WithSource (e : error) (src : Source) : error := ErrorSource src e.

(** The source annotations an error carries, outermost first. *)
Fixpoint sources (e : error) : list Source :=
  match e with
  | Errorf _ => []
  | Wrap cause _ => sources cause
  | Canceled => []
  | VertexError _ cause => sources cause
  | ExecError _ _ cause => sources cause
  | ErrorSource src cause => src :: sources cause
  end.

End errdefs.
Export errdefs.

(** ** The definition's source map ([pb.Definition], [pb.Source]) *)

Record Location := mkLocation { SourceIndex : Z; LocRanges : list Range }.

Record SourceMap := mkSourceMap {
  Locations : gmap Digest (list Location);
  Infos : list SourceInfo }.

Record Definition_ := mkDefinition { Def_Source : option SourceMap }.

(** [s[i]] for a slice [s] and a signed index: out of range panics. *)
Definition index {A : Type} (s : list A) (i : Z) : go A :=
  if decide (0 ≤ i)%Z then
    match s !! Z.to_nat i with
    | Some a => Returns a
    | None => Panics
    end
  else Panics.

(** ** External collaborators of a result proxy *)

(** [context.Context]: what the proxy observes of it is whether [ctx.Done()]
    is closed when the [select] statement of [Result] runs. *)
Record Ctx := mkCtx { Done : bool }.

(** [*provenance.Capture], opaque. *)
Definition Capture := nat.

(** The collaborators [bridge.go] calls and does not define.
    - [evaluate n ctx] is what [rp.b.loadResult(ctx, ...)] returns on its
      invocation number [n] (counted from 0) on this proxy;
    - [resultRelease log res] is what [res.Release(ctx)] returns when the
      results in [log] were released before, in that order;
    - [captureProvenance] and [IsCanceled] are the functions of these names
      of packages [llbsolver] and [solver/errdefs]. *)
Class Collaborators := {
  evaluate : nat → Ctx → option Ref * option error;
  resultRelease : list Ref → Ref → option error;
  captureProvenance : Ctx → option Ref → option Capture * option error;
  IsCanceled : Ctx → error → bool }.

(** The effects of a proxy outside its own fields: how many times the
    evaluation ran, which results were released (in order), the warnings
    logged, and the [ExecError] objects whose [OwnerBorrowed] flag is set. *)
Record World := mkWorld {
  evaluations : nat;
  releaseLog : list Ref;
  warnLog : list string;
  ownerBorrowed : gset nat }.

(** ** [resultProxy] *)

(** The fields of [resultProxy] that its methods read or write.  [id], [b],
    [g] and [mu] carry no data of their own: the lock [mu] delimits the atomic
    sections below and the group [g] runs its callback for the caller. *)
Record resultProxy := mkResultProxy {
  req_Definition : option Definition_;
  released : bool;
  v : option Ref;
  err : option error;
  errResults : list Ref;
  provenance : option Capture }.

Definition State : Type := resultProxy * World.

(** [newResultProxy]: every field but the request is zero. *)
Definition newResultProxy (def : option Definition_) : resultProxy :=
  mkResultProxy def false None None [] None.

Definition newWorld : World := mkWorld 0 [] [] ∅.

Definition set_released (b : bool) (rp : resultProxy) : resultProxy :=
  mkResultProxy (req_Definition rp) b (v rp) (err rp) (errResults rp) (provenance rp).

Definition append_errResults (rs : list Ref) (rp : resultProxy) : resultProxy :=
  mkResultProxy (req_Definition rp) (released rp) (v rp) (err rp)
    (errResults rp ++ rs) (provenance rp).

Definition set_provenance (c : option Capture) (rp : resultProxy) : resultProxy :=
  mkResultProxy (req_Definition rp) (released rp) (v rp) (err rp) (errResults rp) c.

Definition set_outcome (res : option Ref) (e : option error) (rp : resultProxy)
  : resultProxy :=
  mkResultProxy (req_Definition rp) (released rp) res e (errResults rp) (provenance rp).

Definition count_evaluation (w : World) : World :=
  mkWorld (S (evaluations w)) (releaseLog w) (warnLog w) (ownerBorrowed w).

Definition log_release (res : Ref) (w : World) : World :=
  mkWorld (evaluations w) (releaseLog w ++ [res]) (warnLog w) (ownerBorrowed w).

Definition Warnf (msg : string) (w : World) : World :=
  mkWorld (evaluations w) (releaseLog w) (warnLog w ++ [msg]) (ownerBorrowed w).

Definition borrow (ptr : nat) (w : World) : World :=
  mkWorld (evaluations w) (releaseLog w) (warnLog w) ({[ptr]} ∪ ownerBorrowed w).

Section resultProxy_methods.
Context `{Collaborators}.

(** [res.Release(ctx)] on a result object. *)
Definition Result_Release (res : Ref) (w : World) : option error * World :=
  (resultRelease (releaseLog w) res, log_release res w).

(** The loop of [Release] over [rp.errResults]; [err] is the named result. *)
Fixpoint Release_errResults (rs : list Ref) (err : option error) (w : World)
  : option error * World :=
  match rs with
  | [] => (err, w)
  | res :: rest =>
      let '(rerr, w1) := Result_Release res w in
      Release_errResults rest (match rerr with Some _ => rerr | None => err end) w1
  end.

(** [resultProxy.Release]. *)
Definition Release (ctx : Ctx) (s : State) : option error * State :=
  let '(rp, w) := s in
  let '(err, w1) := Release_errResults (errResults rp) None w in
  match v rp with
  | Some res =>
      let w2 := if released rp
                then Warnf "release of already released result" w1 else w1 in
      let '(rerr, w3) := Result_Release res w2 in
      match err with
      | Some _ => (rerr, (rp, w3))
      | None => (None, (set_released true rp, w3))
      end
  | None => (err, (set_released true rp, w1))
  end.

(** [Release] calls made by other goroutines, one after the other; their
    return values go to those callers. *)
Definition Releases (ctxs : list Ctx) (s : State) : State :=
  foldl (λ s ctx, (Release ctx s).2) s ctxs.

(** The loop of [wrapError] over the locations of the failing node. *)
Fixpoint wrapError_locs (infos : list SourceInfo) (locs : list Location) (e : error)
  : go error :=
  match locs with
  | [] => Returns e
  | loc :: rest =>
      match index infos (SourceIndex loc) with
      | Returns info =>
          wrapError_locs infos rest (WithSource e (mkSource info (LocRanges loc)))
      | Panics => Panics
      | Blocks => Blocks
      end
  end.

(** [resultProxy.wrapError].  [rp.req.Definition] is dereferenced only once a
    vertex error was found. *)
Definition wrapError (rp : resultProxy) (err : option error) : go (option error) :=
  match err with
  | None => Returns None
  | Some e =>
      match asVertexError e with
      | Some dgst =>
          match req_Definition rp with
          | None => Panics
          | Some def =>
              match Def_Source def with
              | Some sm =>
                  match Locations sm !! dgst with
                  | Some locs => go_map Some (wrapError_locs (Infos sm) locs e)
                  | None => Returns (Some e)
                  end
              | None => Returns (Some e)
              end
          end
      | None => Returns (Some e)
      end
  end.

(** [resultProxy.loadResult].  The evaluation [rp.b.loadResult] is the long
    step: [during] are the [Release] calls other goroutines complete while it
    runs.  Afterwards the results an [ExecError] exposes are appended to
    [rp.errResults] and the error object is marked [OwnerBorrowed]. *)
Definition loadResult (during : list Ctx) (ctx : Ctx) (s : State)
  : (option Ref * option error) * State :=
  let out := evaluate (evaluations s.2) ctx in
  let '(rp, w) := Releases during (s.1, count_evaluation s.2) in
  match out.2 ≫= asExecError with
  | Some (ptr, refs) => (out, (append_errResults refs rp, borrow ptr w))
  | None => (out, (rp, w))
  end.

(** The second critical section of the callback of [Result], entered with the
    outcome [(res, e)] of the evaluation. *)
Definition Result_store (ctx : Ctx) (res : option Ref) (e : option error) (s : State)
  : go (option Ref * option error) * State :=
  let '(rp, w) := s in
  if released rp then
    let w1 := match res with Some r => (Result_Release r w).2 | None => w end in
    (Returns (None, Some (Errorf "evaluating released result")), (rp, w1))
  else
    match e with
    | Some _ => (Returns (res, e), (set_outcome res e rp, w))
    | None =>
        let '(capture, cerr) := captureProvenance ctx res in
        match cerr with
        | Some ce =>
            match res with
            | Some r =>
                let e' := Some (Errorf ("failed to capture provenance: " +:+ Error ce)) in
                (Returns (None, e'),
                 (set_outcome None e' (set_provenance capture rp), (Result_Release r w).2))
            | None => (Panics, (rp, w))
            end
        | None =>
            (Returns (res, None), (set_outcome res None (set_provenance capture rp), w))
        end
    end.

(** The callback [Result] passes to [rp.g.Do].  [before] are the [Release]
    calls other goroutines complete between the end of the evaluation and the
    second critical section. *)
Definition Result_callback (during before : list Ctx) (ctx : Ctx) (s : State)
  : go (option Ref * option error) * State :=
  if released s.1 then
    (Returns (None, Some (Errorf "accessing released result")), s)
  else if bool_decide (is_Some (v s.1) ∨ is_Some (err s.1)) then
    (Returns (v s.1, err s.1), s)
  else
    let '((res, e), s1) := loadResult during ctx s in
    match e with
    | Some e' =>
        if Done ctx && IsCanceled ctx e' then (Returns (res, e), s1)
        else Result_store ctx res e (Releases before s1)
    | None => Result_store ctx res e (Releases before s1)
    end.

(** [resultProxy.Result] with the interleaving of concurrent [Release] calls
    made explicit.  The deferred function rewrites the returned error with
    [wrapError]. *)
Definition Result_with (during before : list Ctx) (ctx : Ctx) (s : State)
  : go (option Ref * option error) * State :=
  let '(out, s') := Result_callback during before ctx s in
  match out with
  | Returns (res, e) => (go_map (pair res) (wrapError s'.1 e), s')
  | Panics => (Panics, s')
  | Blocks => (Blocks, s')
  end.

(** [resultProxy.Result] when no other goroutine touches the proxy meanwhile. *)
Definition Result (ctx : Ctx) (s : State) : go (option Ref * option error) * State :=
  Result_with [] [] ctx s.

(** Successive [Result] calls, one per context. *)
Fixpoint Results (ctxs : list Ctx) (s : State)
  : list (go (option Ref * option error)) * State :=
  match ctxs with
  | [] => ([], s)
  | ctx :: rest =>
      let '(out, s1) := Result ctx s in
      let '(outs, s2) := Results rest s1 in
      (out :: outs, s2)
  end.

(** Modelled from the spec: the release logic of an [ExecError] itself
    (package [solver/llbsolver/errdefs], outside the files embedded here)
    releases the results the error exposes unless ownership was taken from it,
    that is unless its [OwnerBorrowed] flag is set. *)
Definition ExecError_Release (ptr : nat) (refs : list Ref) (w : World) : World :=
  if decide (ptr ∈ ownerBorrowed w) then w
  else borrow ptr (foldl (λ w r, (Result_Release r w).2) w refs).

End resultProxy_methods.

(** ** Cache managers *)

(** The arguments and results of [solver.CacheManager], opaque to the bridge. *)
Definition CacheKey := string.
Definition CacheRecord := string.
Definition Index := N.
Definition Time := Z.

(** The interface [solver.CacheManager] as a resolved backend implements it. *)
Record CacheManager := mkCacheManager {
  cm_Query : list (CacheKey * Digest) → Index → Digest → Index
             → list CacheKey * option error;
  cm_Records : CacheKey → list CacheRecord * option error;
  cm_Load : CacheRecord → option Ref * option error;
  cm_Save : CacheKey → Ref → Time → option CacheKey * option error;
  cm_ReleaseUnreferenced : option error }.

Module lcm.

(** [lazyCacheManager]; [waitCh] is [true] once the channel is closed. *)
Record lazyCacheManager := mkLazy {
  id : string;
  main : option CacheManager;
  waitCh : bool;
  err : option error }.

(** [newLazyCacheManager] returns the manager in this state and starts the
    goroutine [resolve fn]. *)
Definition newLazyCacheManager (id : string) : lazyCacheManager :=
  mkLazy id None false None.

(** The goroutine of [newLazyCacheManager]; [fn] is what the callback returns.
    The deferred [close(lcm.waitCh)] runs on both paths. *)
Definition resolve (fn : option CacheManager * option error) (l : lazyCacheManager)
  : lazyCacheManager :=
  match fn.2 with
  | Some e => mkLazy (id l) (main l) true (Some e)
  | None => mkLazy (id l) fn.1 true (err l)
  end.

(** [wait]: the receive blocks until the channel is closed. *)
Definition wait (l : lazyCacheManager) : go (option error) :=
  if waitCh l then Returns (err l) else Blocks.

Definition Query (l : lazyCacheManager) (inp : list (CacheKey * Digest))
    (inputIndex : Index) (dgst : Digest) (outputIndex : Index)
  : go (list CacheKey * option error) :=
  match wait l with
  | Returns _ =>
      match main l with
      | None => Returns ([], None)
      | Some m => Returns (cm_Query m inp inputIndex dgst outputIndex)
      end
  | Panics => Panics
  | Blocks => Blocks
  end.

Definition Records (l : lazyCacheManager) (ck : CacheKey)
  : go (list CacheRecord * option error) :=
  match wait l with
  | Returns _ =>
      match main l with
      | None => Returns ([], None)
      | Some m => Returns (cm_Records m ck)
      end
  | Panics => Panics
  | Blocks => Blocks
  end.

(** In [Load], [Save] and [ReleaseUnreferenced] the method of [lcm.main] is
    called without a nil check: on a nil interface the call panics. *)
Definition Load (l : lazyCacheManager) (rec : CacheRecord)
  : go (option Ref * option error) :=
  match wait l with
  | Returns (Some e) => Returns (None, Some e)
  | Returns None =>
      match main l with
      | None => Panics
      | Some m => Returns (cm_Load m rec)
      end
  | Panics => Panics
  | Blocks => Blocks
  end.

Definition Save (l : lazyCacheManager) (key : CacheKey) (s : Ref) (createdAt : Time)
  : go (option CacheKey * option error) :=
  match wait l with
  | Returns (Some e) => Returns (None, Some e)
  | Returns None =>
      match main l with
      | None => Panics
      | Some m => Returns (cm_Save m key s createdAt)
      end
  | Panics => Panics
  | Blocks => Blocks
  end.

Definition ReleaseUnreferenced (l : lazyCacheManager) : go (option error) :=
  match wait l with
  | Returns (Some e) => Returns (Some e)
  | Returns None =>
      match main l with
      | None => Panics
      | Some m => Returns (cm_ReleaseUnreferenced m)
      end
  | Panics => Panics
  | Blocks => Blocks
  end.

End lcm.

(** ** The cache-manager registry of [llbBridge] *)

(** [gw.CacheOptionsEntry]. *)
Record CacheOptionsEntry := mkCacheOptionsEntry {
  Type_ : string;
  Attrs : gmap string string }.

(** What the registry calls and does not define:
    - [Hash im] is [hashstructure.Hash(im, hashstructure.FormatV2, nil)];
    - [importFn cmID im] is what the callback given to [newLazyCacheManager]
      returns for the entry [im] under the key [cmID] (it looks the importer
      of [im.Type] up and asks it to resolve a manager). *)
Class Importers := {
  Hash : CacheOptionsEntry → N * option error;
  importFn : string → CacheOptionsEntry → option CacheManager * option error }.

(** [m[k]] on a Go map of strings: the zero value when the key is absent. *)
Definition attr (m : gmap string string) (k : string) : string := default "" (m !! k).

(** The registry part of [llbBridge]: the map [cms], whose values are pointers
    to lazy managers, and the managers allocated so far ([heap], a pointer is
    an index) each with the entry its goroutine resolves. *)
Record Registry := mkRegistry {
  cms : gmap string nat;
  heap : list (lcm.lazyCacheManager * CacheOptionsEntry) }.

Definition newRegistry : Registry := mkRegistry ∅ [].

Section registry.
Context `{Importers}.

(** [cmKey]. *)
Definition cmKey (im : CacheOptionsEntry) : string * option error :=
  if bool_decide (Type_ im = "registry" ∧ attr (Attrs im) "ref" ≠ "") then
    (attr (Attrs im) "ref", None)
  else
    let '(i, e) := Hash im in
    match e with
    | Some e => ("", Some e)
    | None => (Type_ im +:+ ":" +:+ pretty i, None)
    end.

(** One iteration of the loop over [cacheImports] in [llbBridge.loadResult],
    inside the critical section of [cmsMu]: the handle for the key [cmID]. *)
Definition loadResult_cm (cmID : string) (im : CacheOptionsEntry) (b : Registry)
  : nat * Registry :=
  match cms b !! cmID with
  | None =>
      let cm := length (heap b) in
      (cm, mkRegistry (<[cmID := cm]> (cms b))
                      (heap b ++ [(lcm.newLazyCacheManager cmID, im)]))
  | Some prevCm => (prevCm, b)
  end.

(** The loop over [cacheImports] in [llbBridge.loadResult]: the handles in the
    order of the entries, or the error of the first key that cannot be
    computed; the handles registered before that error stay registered. *)
Fixpoint loadResult_cms (cacheImports : list CacheOptionsEntry) (b : Registry)
  : (list nat * option error) * Registry :=
  match cacheImports with
  | [] => (([], None), b)
  | im :: rest =>
      let '(cmID, e) := cmKey im in
      match e with
      | Some e => (([], Some e), b)
      | None =>
          let '(cm, b1) := loadResult_cm cmID im b in
          let '((cms', e'), b2) := loadResult_cms rest b1 in
          ((match e' with Some _ => [] | None => cm :: cms' end, e'), b2)
      end
  end.

(** The goroutine of the manager at pointer [p] runs to completion. *)
Definition run_goroutine (p : nat) (b : Registry) : Registry :=
  match heap b !! p with
  | Some (l, im) =>
      if lcm.waitCh l then b
      else mkRegistry (cms b) (<[p := (lcm.resolve (importFn (lcm.id l) im) l, im)]> (heap b))
  | None => b
  end.

End registry.

(** ** Entitlements and the executor bridge *)

Module pb.
Inductive NetMode := NetMode_UNSET | NetMode_HOST | NetMode_NONE.
Inductive SecurityMode := SecurityMode_SANDBOX | SecurityMode_INSECURE.
#[global] Instance NetMode_eq_dec : EqDecision NetMode.
Proof. solve_decision. Defined.
#[global] Instance SecurityMode_eq_dec : EqDecision SecurityMode.
Proof. solve_decision. Defined.
End pb.

Module executor.
(** The fields of [executor.Meta] and [executor.ProcessInfo] the bridge reads. *)
Record Meta := mkMeta {
  Args : list string;
  NetMode : pb.NetMode;
  SecurityMode : pb.SecurityMode }.
Record ProcessInfo := mkProcessInfo { pMeta : Meta }.
End executor.

Module entitlements.

(** [entitlements.Values]. *)
Record Values := mkValues { NetworkHost : bool; SecurityInsecure : bool }.

(** Modelled from the spec: the entitlement set granted to a build (package
    [util/entitlements], outside the files embedded here) holds one boolean
    grant for host networking and one for the insecure security mode. *)
Record Set_ := mkSet { AllowNetworkHost : bool; AllowSecurityInsecure : bool }.

(** Modelled from the spec: [Set.Check] (same package) checks a host-network
    request and an insecure-security request each against its grant; a
    mismatch is an entitlement error. *)
Definition Check (s : Set_) (v : Values) : option error :=
  if NetworkHost v && negb (AllowNetworkHost s) then
    Some (Errorf "network.host is not allowed")
  else if SecurityInsecure v && negb (AllowSecurityInsecure s) then
    Some (Errorf "security.insecure is not allowed")
  else None.

End entitlements.

(** A call forwarded to the executor backend. *)
Inductive ExecutorCall :=
| CallRun (id : string) (process : executor.ProcessInfo)
| CallExec (id : string) (process : executor.ProcessInfo).

(** What the executor bridge calls and does not define:
    - [loadEntitlements] is what [loadEntitlements(b.builder)] returns;
    - [resolveWorker] is what [b.resolveWorker()] returns, the worker being
      given by the executor [w.Executor()] it carries;
    - [backend_Run] and [backend_Exec] are the methods of that executor. *)
Class Backend := {
  loadEntitlements : entitlements.Set_ * option error;
  resolveWorker : option nat * option error;
  backend_Run : nat → string → executor.ProcessInfo → option nat * option error;
  backend_Exec : nat → string → executor.ProcessInfo → option error }.

(** The executor part of [llbBridge], with the calls made so far to
    [resolveWorker] and to the executor backend. *)
Record llbBridge := mkBridge {
  executorOnce : bool;
  executorErr : option error;
  executor_ : option nat;
  resolveWorker_calls : nat;
  executor_calls : list ExecutorCall }.

Definition newBridge : llbBridge := mkBridge false None None 0 [].

Section executor_bridge.
Context `{Backend}.

(** [llbBridge.validateEntitlements]. *)
Definition validateEntitlements (p : executor.ProcessInfo) : option error :=
  let '(ent, e) := loadEntitlements in
  match e with
  | Some e => Some e
  | None =>
      entitlements.Check ent
        (entitlements.mkValues
           (bool_decide (executor.NetMode (executor.pMeta p) = pb.NetMode_HOST))
           (bool_decide (executor.SecurityMode (executor.pMeta p) = pb.SecurityMode_INSECURE)))
  end.

(** [llbBridge.loadExecutor]: the body of [executorOnce.Do] runs on the first
    call only. *)
Definition loadExecutor (b : llbBridge) : go (option error) * llbBridge :=
  if executorOnce b then (Returns (executorErr b), b)
  else
    let '(w, e) := resolveWorker in
    match e with
    | Some e =>
        (Returns (Some e),
         mkBridge true (Some e) (executor_ b) (S (resolveWorker_calls b)) (executor_calls b))
    | None =>
        match w with
        | Some ex =>
            (Returns (executorErr b),
             mkBridge true (executorErr b) (Some ex) (S (resolveWorker_calls b))
               (executor_calls b))
        | None =>
            (Panics,
             mkBridge true (executorErr b) (executor_ b) (S (resolveWorker_calls b))
               (executor_calls b))
        end
    end.

Definition log_call (c : ExecutorCall) (b : llbBridge) : llbBridge :=
  mkBridge (executorOnce b) (executorErr b) (executor_ b) (resolveWorker_calls b)
    (executor_calls b ++ [c]).

(** [llbBridge.Run]. *)
Definition Run (id : string) (process : executor.ProcessInfo) (b : llbBridge)
  : go (option nat * option error) * llbBridge :=
  match validateEntitlements process with
  | Some e => (Returns (None, Some e), b)
  | None =>
      match loadExecutor b with
      | (Returns (Some e), b1) => (Returns (None, Some e), b1)
      | (Returns None, b1) =>
          match executor_ b1 with
          | Some ex => (Returns (backend_Run ex id process), log_call (CallRun id process) b1)
          | None => (Panics, b1)
          end
      | (Panics, b1) => (Panics, b1)
      | (Blocks, b1) => (Blocks, b1)
      end
  end.

(** [llbBridge.Exec]. *)
Definition Exec (id : string) (process : executor.ProcessInfo) (b : llbBridge)
  : go (option error) * llbBridge :=
  match validateEntitlements process with
  | Some e => (Returns (Some e), b)
  | None =>
      match loadExecutor b with
      | (Returns (Some e), b1) => (Returns (Some e), b1)
      | (Returns None, b1) =>
          match executor_ b1 with
          | Some ex => (Returns (backend_Exec ex id process), log_call (CallExec id process) b1)
          | None => (Panics, b1)
          end
      | (Panics, b1) => (Panics, b1)
      | (Blocks, b1) => (Blocks, b1)
      end
  end.

End executor_bridge.

(** ** Specification-level notions used in the statements *)

(** The errors the successive releases of [rs] return, when [log] was
    released before. *)
Fixpoint release_errors `{Collaborators} (log : list Ref) (rs : list Ref)
  : list (option error) :=
  match rs with
  | [] => []
  | r :: rest => resultRelease log r :: release_errors (log ++ [r]) rest
  end.

(** The results one [Release] call releases, in order. *)
Definition released_by `{Collaborators} (ctx : Ctx) (s : State) : list Ref :=
  drop (length (releaseLog s.2)) (releaseLog (Release ctx s).2.2).

(** The last error encountered in a list of release outcomes. *)
Definition last_error (es : list (option error)) : option error :=
  last (omap id es).


(** The invariant of the registry: the map [cms] and the allocated managers
    name each other, so no two managers were built for one key. *)
Definition registry_ok (b : Registry) : Prop :=
  (∀ k p, cms b !! k = Some p → ∃ l im, heap b !! p = Some (l, im) ∧ lcm.id l = k)
  ∧ (∀ p l im, heap b !! p = Some (l, im) → cms b !! lcm.id l = Some p).

(** The process asks for a mode the granted entitlements do not cover. *)
Definition entitlement_mismatch (ent : entitlements.Set_) (p : executor.ProcessInfo)
  : Prop :=
  (executor.NetMode (executor.pMeta p) = pb.NetMode_HOST
   ∧ entitlements.AllowNetworkHost ent = false)
  ∨ (executor.SecurityMode (executor.pMeta p) = pb.SecurityMode_INSECURE
     ∧ entitlements.AllowSecurityInsecure ent = false).

(** ** Concrete collaborators, for running the model *)

(** [errors.Is(err, context.Canceled)]. *)
Fixpoint is_canceled (e : error) : bool :=
  match e with
  | Errorf _ => false
  | Wrap cause _ => is_canceled cause
  | Canceled => true
  | VertexError _ cause => is_canceled cause
  | ExecError _ _ cause => is_canceled cause
  | ErrorSource _ cause => is_canceled cause
  end.

(** A solver whose successive evaluations return the outcomes of [script],
    whose results in [failing] cannot be released, and whose provenance
    capture succeeds. *)
Definition scripted (script : list (option Ref * option error)) (failing : list Ref)
  : Collaborators :=
  {| evaluate n _ := default (None, Some (Errorf "no evaluation left")) (script !! n);
     resultRelease _ r :=
       if bool_decide (r ∈ failing) then Some (Errorf "release failed") else None;
     captureProvenance _ _ := (None, None);
     IsCanceled _ e := is_canceled e |}.

(** A build step canceled while it ran exposes the results 7 and 8; the next
    evaluation succeeds with result 1.  Result 7 cannot be released. *)
Definition canceled_then_built : Collaborators :=
  scripted [(None, Some (ExecError 0 [7; 8] Canceled)); (Some 1, None)] [7].

(** A build that succeeds at once with result 1. *)
Definition built : Collaborators := scripted [(Some 1, None)] [].

(** A build that fails at a step exposing the results 7 and 8. *)
Definition failed_step : Collaborators :=
  scripted [(None, Some (VertexError "sha256:aa" (ExecError 0 [7; 8] (Errorf "exit code: 1"))))] [].


Definition ctx_live : Ctx := mkCtx false.
Definition ctx_canceled : Ctx := mkCtx true.

Definition fresh : State := (newResultProxy (Some (mkDefinition None)), newWorld).

(** A definition whose source map records one location for node [sha256:aa]. *)
Definition dockerfile : SourceInfo := mkSourceInfo "Dockerfile" "RUN false".
Definition line3 : Range := mkRange 3 0 3 9.
Definition mapped : Definition_ :=
  mkDefinition (Some (mkSourceMap {[ "sha256:aa" := [mkLocation 0 [line3]] ]} [dockerfile])).
Definition step_failed : error := VertexError "sha256:aa" (Errorf "exit code: 1").

(** Importers whose hash is the number of attributes and which resolve no
    manager. *)
Definition sized : Importers :=
  {| Hash im := (N.of_nat (size (Attrs im)), None);
     importFn _ _ := (None, None) |}.

Definition registry_ref : CacheOptionsEntry :=
  mkCacheOptionsEntry "registry" {[ "ref" := "example.com/cache" ]}.
Definition local_dir : CacheOptionsEntry :=
  mkCacheOptionsEntry "local" {[ "src" := "/tmp/cache" ]}.

(** A build granted nothing, on a worker whose executor is number 0. *)
Definition ungranted : Backend :=
  {| loadEntitlements := (entitlements.mkSet false false, None);
     resolveWorker := (Some 0, None);
     backend_Run _ _ _ := (Some 0, None);
     backend_Exec _ _ _ := None |}.

Definition host_process : executor.ProcessInfo :=
  executor.mkProcessInfo (executor.mkMeta ["sh"] pb.NetMode_HOST pb.SecurityMode_SANDBOX).
Definition sandboxed_process : executor.ProcessInfo :=
  executor.mkProcessInfo (executor.mkMeta ["sh"] pb.NetMode_UNSET pb.SecurityMode_SANDBOX).

(** ** Sequences of calls on a result proxy *)

(** [resultProxy.Provenance]: the capture, or nil. *)
Definition Provenance (rp : resultProxy) : option Capture :=
  match provenance rp with
  | None => None
  | Some c => Some c
  end.

(** A call a proxy receives: [Result], with the [Release] calls of other
    goroutines that overlap it, or [Release]. *)
Inductive ProxyCall :=
| CallResult (during before : list Ctx) (ctx : Ctx)
| CallRelease (ctx : Ctx).

(** The state a call leaves behind. *)
Definition proxy_call `{Collaborators} (c : ProxyCall) (s : State) : State :=
  match c with
  | CallResult during before ctx => (Result_with during before ctx s).2
  | CallRelease ctx => (Release ctx s).2
  end.

Definition proxy_calls `{Collaborators} (cs : list ProxyCall) (s : State) : State :=
  foldl (λ s c, proxy_call c s) s cs.

(** The number of [Result] calls of a sequence. *)
Definition is_Result (c : ProxyCall) : bool :=
  match c with
  | CallResult _ _ _ => true
  | CallRelease _ => false
  end.

Definition count_Result (cs : list ProxyCall) : nat :=
  length (filter (λ c, is_Result c = true) cs).

(** The history of a proxy only grows from [s] to [s']: what was released,
    logged, retained, marked or evaluated in [s] still is in [s']. *)
Definition grows (s s' : State) : Prop :=
  releaseLog s.2 `prefix_of` releaseLog s'.2
  ∧ warnLog s.2 `prefix_of` warnLog s'.2
  ∧ errResults s.1 `prefix_of` errResults s'.1
  ∧ ownerBorrowed s.2 ⊆ ownerBorrowed s'.2
  ∧ (evaluations s.2 ≤ evaluations s'.2)%nat.

(** ** [lazyCacheManager.ID] *)

Definition lazyCacheManager_ID (l : lcm.lazyCacheManager) : string := lcm.id l.

(** ** Sequences of calls on the executor bridge *)

Inductive BridgeCall :=
| DoRun (id : string) (process : executor.ProcessInfo)
| DoExec (id : string) (process : executor.ProcessInfo).

Definition bridge_call `{Backend} (c : BridgeCall) (b : llbBridge) : llbBridge :=
  match c with
  | DoRun id process => (Run id process b).2
  | DoExec id process => (Exec id process b).2
  end.

Definition bridge_calls `{Backend} (cs : list BridgeCall) (b : llbBridge) : llbBridge :=
  foldl (λ b c, bridge_call c b) b cs.

Definition call_process (c : ExecutorCall) : executor.ProcessInfo :=
  match c with
  | CallRun _ process => process
  | CallExec _ process => process
  end.

(** The calls of a sequence that pass the validation, as the executor
    receives them. *)
Definition forwarded `{Backend} (cs : list BridgeCall) : list ExecutorCall :=
  omap (λ c, match c with
             | DoRun id process =>
                 match validateEntitlements process with
                 | None => Some (CallRun id process)
                 | Some _ => None
                 end
             | DoExec id process =>
                 match validateEntitlements process with
                 | None => Some (CallExec id process)
                 | Some _ => None
                 end
             end) cs.

(** The states of a bridge made by [newBridge]: not initialised, or
    initialised once with what [resolveWorker] returned. *)
Definition bridge_inv `{Backend} (b : llbBridge) : Prop :=
  (executorOnce b = false ∧ resolveWorker_calls b = 0
   ∧ executorErr b = None ∧ executor_ b = None)
  ∨ (executorOnce b = true ∧ resolveWorker_calls b = 1
     ∧ executorErr b = resolveWorker.2
     ∧ executor_ b = match resolveWorker.2 with Some _ => None | None => resolveWorker.1 end).

(** ** [llbBridge.loadResult] *)

(** [*spb.Policy] and [solver.Edge], opaque. *)
Definition Policy := nat.
Definition Edge := nat.

(** What [llbBridge.loadResult] and [llbBridge.ResolveSourceMetadata] call and
    do not define:
    - [loadSourcePolicy] is what [loadSourcePolicy(b.builder)] returns;
    - [validateSourcePolicy] is the function of this name of the package;
    - [Load def polEngine ent cms] is what [Load(ctx, def, polEngine, dpc.Load,
      ...)] returns, together with the identifiers it leaves in [dpc.ids];
      [polEngine] is the list of policies of the engine, or nil;
    - [PruneCacheMounts ids] is what [b.eachWorker] returns for the callback
      that prunes [ids] on each worker;
    - [Build edge] is what [b.builder.Build(ctx, edge)] returns. *)
Class Builder := {
  loadSourcePolicy : option Policy * option error;
  validateSourcePolicy : Policy → option error;
  Load : option Definition_ → option (list (option Policy)) → entitlements.Set_
         → list nat → (Edge * option error) * list string;
  PruneCacheMounts : list string → option error;
  Build : Edge → option Ref * option error }.

(** The calls [llbBridge.loadResult] made to the workers and to the builder. *)
Record BuildLog := mkBuildLog {
  pruneCalls : list (list string);
  buildCalls : list Edge }.

Definition newBuildLog : BuildLog := mkBuildLog [] [].

Section llbBridge_loadResult.
Context `{Backend} `{Importers} `{Builder}.

(** The loop of [llbBridge.loadResult] over the submitted policies. *)
Fixpoint loadResult_validate (pol : list (option Policy)) : option error :=
  match pol with
  | [] => None
  | None :: _ => Some (Errorf "invalid nil policy")
  | Some p :: rest =>
      match validateSourcePolicy p with
      | Some e => Some e
      | None => loadResult_validate rest
      end
  end.

(** The policy part of [llbBridge.loadResult]: the policies of the engine, or
    nil when no engine is made, and the error of the validation. *)
Definition loadResult_polEngine (srcPol : option Policy) (pol : list (option Policy))
  : option (list (option Policy)) * option error :=
  if bool_decide (is_Some srcPol ∨ (0 < length pol)%nat) then
    match loadResult_validate pol with
    | Some e => (None, Some e)
    | None =>
        (Some (match srcPol with Some _ => srcPol :: pol | None => pol end), None)
    end
  else (None, None).

(** [llbBridge.loadResult].  The worker [w] is dereferenced first in the
    arguments of [Load]. *)
Definition llbBridge_loadResult (def : option Definition_)
    (cacheImports : list CacheOptionsEntry) (pol : list (option Policy))
    (s : Registry * BuildLog)
  : go (option Ref * option error) * (Registry * BuildLog) :=
  let '(w, e) := resolveWorker in
  match e with
  | Some e => (Returns (None, Some e), s)
  | None =>
      let '(ent, e) := loadEntitlements in
      match e with
      | Some e => (Returns (None, Some e), s)
      | None =>
          let '(srcPol, e) := loadSourcePolicy in
          match e with
          | Some e => (Returns (None, Some e), s)
          | None =>
              let '(polEngine, e) := loadResult_polEngine srcPol pol in
              match e with
              | Some e => (Returns (None, Some e), s)
              | None =>
                  let '((cms, e), b1) := loadResult_cms cacheImports s.1 in
                  match e with
                  | Some e => (Returns (None, Some e), (b1, s.2))
                  | None =>
                      match w with
                      | None => (Panics, (b1, s.2))
                      | Some _ =>
                          let '((edge, e), ids) := Load def polEngine ent cms in
                          match e with
                          | Some e =>
                              (Returns (None, Some (Wrap e "failed to load LLB")), (b1, s.2))
                          | None =>
                              let '(e, log1) :=
                                if bool_decide (0 < length ids)%nat then
                                  (PruneCacheMounts ids,
                                   mkBuildLog (pruneCalls s.2 ++ [ids]) (buildCalls s.2))
                                else (None, s.2) in
                              match e with
                              | Some e => (Returns (None, Some e), (b1, log1))
                              | None =>
                                  let log2 := mkBuildLog (pruneCalls log1) (buildCalls log1 ++ [edge]) in
                                  match Build edge with
                                  | (_, Some e) => (Returns (None, Some e), (b1, log2))
                                  | (res, None) => (Returns (res, None), (b1, log2))
                                  end
                              end
                          end
                      end
                  end
              end
          end
      end
  end.

End llbBridge_loadResult.

(** A submitted policy the validation accepts: not nil, and valid. *)
Definition policy_ok `{Builder} (p : option Policy) : Prop :=
  ∃ q, p = Some q ∧ validateSourcePolicy q = None.

(** ** [llbBridge.ResolveSourceMetadata] *)

(** [*pb.SourceOp], [sourceresolver.Opt] (the fields the bridge reads or
    writes) and [*sourceresolver.MetaResponse]. *)
Record SourceOp := mkSourceOp { Identifier : string; op_Attrs : gmap string string }.
Definition Platform := string.
Record Opt := mkOpt {
  LogName : string;
  SourcePolicies : list (option Policy);
  opt_Platform : option Platform }.
Definition MetaResponse := nat.

(** What [ResolveSourceMetadata] calls and does not define:
    - [FormatAll] and [DefaultSpec] are the functions of package [platforms];
    - [Evaluate pols op] is the error of
      [sourcepolicy.NewEngine(pols).Evaluate(ctx, op)] and the operation [op]
      points to afterwards;
    - [worker_ResolveSourceMetadata op opt] is what the method of this name
      of the worker returns;
    - [inBuilderContext name id f] is what the call of [inBuilderContext]
      leaves in [resp] and returns as error, [f] being what its callback
      does when it is run. *)
Class SourceResolver := {
  FormatAll : Platform → string;
  DefaultSpec : Platform;
  Evaluate : list (option Policy) → SourceOp → SourceOp * option error;
  worker_ResolveSourceMetadata : SourceOp → Opt → option MetaResponse * option error;
  inBuilderContext : string → string → go (option MetaResponse * option error)
                     → go (option MetaResponse * option error) }.

Section ResolveSourceMetadata.
Context `{Backend} `{Builder} `{SourceResolver}.

(** The callback [ResolveSourceMetadata] gives to [inBuilderContext]. *)
Definition ResolveSourceMetadata_callback (w : option nat) (op : SourceOp) (opt : Opt)
  : go (option MetaResponse * option error) :=
  match w with
  | None => Panics
  | Some _ => Returns (worker_ResolveSourceMetadata op opt)
  end.

(** [llbBridge.ResolveSourceMetadata]. *)
Definition ResolveSourceMetadata (op : option SourceOp) (opt : Opt)
  : go (option MetaResponse * option error) :=
  let '(w, e) := resolveWorker in
  match e with
  | Some e => Returns (None, Some e)
  | None =>
      match op with
      | None => Panics
      | Some op =>
          let opt1 :=
            if bool_decide (LogName opt = "") then
              mkOpt ("resolve image config for " +:+ Identifier op)
                (SourcePolicies opt) (opt_Platform opt)
            else opt in
          let id :=
            Identifier op +:+
            match opt_Platform opt1 with
            | Some p => FormatAll p
            | None => FormatAll DefaultSpec
            end in
          let '(pol, e) := loadSourcePolicy in
          match e with
          | Some e => Returns (None, Some e)
          | None =>
              let opt2 :=
                match pol with
                | Some _ =>
                    mkOpt (LogName opt1) (SourcePolicies opt1 ++ [pol]) (opt_Platform opt1)
                | None => opt1
                end in
              let '(op', e) := Evaluate (SourcePolicies opt2) op in
              match e with
              | Some e =>
                  Returns (None, Some (Wrap e "could not resolve image due to policy"))
              | None =>
                  let opt3 := mkOpt (LogName opt2) [] (opt_Platform opt2) in
                  match inBuilderContext (LogName opt3) id
                          (ResolveSourceMetadata_callback w op' opt3) with
                  | Returns (_, Some e) => Returns (None, Some e)
                  | Returns (resp, None) => Returns (resp, None)
                  | Panics => Panics
                  | Blocks => Blocks
                  end
              end
          end
      end
  end.

End ResolveSourceMetadata.

(** ** More concrete collaborators *)

(** A solver whose first evaluation succeeds with result 1 and whose
    provenance capture fails. *)
Definition capture_fails : Collaborators :=
  {| evaluate := @evaluate built;
     resultRelease := @resultRelease built;
     captureProvenance _ _ := (None, Some (Errorf "no provenance"));
     IsCanceled := @IsCanceled built |}.

(** A build whose worker cannot be resolved. *)
Definition no_worker : Backend :=
  {| loadEntitlements := (entitlements.mkSet false false, None);
     resolveWorker := (None, Some (Errorf "no worker"));
     backend_Run _ _ _ := (Some 0, None);
     backend_Exec _ _ _ := None |}.

(** A builder with an ambient policy 9, which accepts every policy but
    policy 0, loads any definition into edge 5 and builds it into result 1. *)
Definition simple_builder : Builder :=
  {| loadSourcePolicy := (Some 9, None);
     validateSourcePolicy p := if bool_decide (p = 0) then Some (Errorf "invalid policy") else None;
     Load _ _ _ _ := ((5, None), []);
     PruneCacheMounts _ := None;
     Build _ := (Some 1, None) |}.

(** A resolver that rejects nothing and runs the callback once. *)
Definition simple_resolver : SourceResolver :=
  {| FormatAll p := p;
     DefaultSpec := "linux/amd64";
     Evaluate _ op := (op, None);
     worker_ResolveSourceMetadata _ _ := (Some 3, None);
     inBuilderContext _ _ f := f |}.

(** A definition whose only location for node [sha256:aa] has no source. *)
Definition mismapped : Definition_ :=
  mkDefinition (Some (mkSourceMap {[ "sha256:aa" := [mkLocation 1 [line3]] ]} [dockerfile])).

(** * Properties *)

(** ** Errors and [wrapError] *)



Lemma wrapError_Some_inv (rp : resultProxy) (e : error) (x : option error) :
  wrapError rp (Some e) = Returns x → is_Some x.
Proof.
  unfold wrapError.
  destruct (asVertexError e); [|by intros [= <-]].
  destruct (req_Definition rp) as [def|]; [|done].
  destruct (Def_Source def) as [sm|]; [|by intros [= <-]].
  destruct (Locations sm !! d); [|by intros [= <-]].
  destruct (wrapError_locs _ _ _); simpl; [|done..].
  by intros [= <-].
Qed.

Lemma wrapError_nil_inv (rp : resultProxy) (e : option error) :
  wrapError rp e = Returns None → e = None.
Proof.
  destruct e as [e|]; [|done].
  intros Hw. apply wrapError_Some_inv in Hw. by destruct Hw.
Qed.

(** ** The result proxy *)

Section resultProxy_proofs.
Context `{Collaborators}.

#[local] Arguments Result_store : simpl never.
#[local] Arguments Releases : simpl never.
#[local] Arguments Release : simpl never.

Lemma last_error_cons (x : option error) (es : list (option error)) :
  last_error (x :: es)
  = match last_error es with Some y => Some y | None => x end.
Proof.
  unfold last_error.
  change (omap id (x :: es))
    with (match x with Some y => y :: omap id es | None => omap id es end).
  destruct x as [x|].
  - rewrite last_cons. by destruct (last (omap id es)).
  - by destruct (last (omap id es)).
Qed.

(** The loop of [Release] releases every retained result, in order, and
    returns the last error encountered, or the error it started with. *)
Lemma Release_errResults_spec (rs : list Ref) (e : option error) (w : World) :
  Release_errResults rs e w
  = (match last_error (release_errors (releaseLog w) rs) with
     | Some y => Some y
     | None => e
     end,
     mkWorld (evaluations w) (releaseLog w ++ rs) (warnLog w) (ownerBorrowed w)).
Proof.
  revert e w. induction rs as [|r rs IH]; intros e w; simpl.
  - rewrite app_nil_r. by destruct w.
  - rewrite IH. simpl. rewrite last_error_cons. rewrite <- app_assoc. simpl.
    f_equal.
    destruct (last_error (release_errors (releaseLog w ++ [r]) rs)); [done|].
    by destruct (resultRelease (releaseLog w) r).
Qed.

Lemma Result_released (during before : list Ctx) (ctx : Ctx) (s : State) :
  released s.1 = true →
  Result_with during before ctx s
  = (Returns (None, Some (Errorf "accessing released result")), s).
Proof.
  intros Hrel. unfold Result_with, Result_callback. by rewrite Hrel.
Qed.

Lemma Result_memo (during before : list Ctx) (ctx : Ctx) (s : State) (r : Ref) :
  released s.1 = false → v s.1 = Some r → err s.1 = None →
  Result_with during before ctx s = (Returns (Some r, None), s).
Proof.
  intros Hrel Hv Herr. unfold Result_with, Result_callback.
  rewrite Hrel, Hv, Herr.
  rewrite bool_decide_true by (left; by eexists). done.
Qed.

Lemma Result_store_success_inv (ctx : Ctx) (res : option Ref) (e : option error)
    (s s' : State) (x : option Ref) :
  Result_store ctx res e s = (Returns (x, None), s') →
  released s'.1 = false ∧ v s'.1 = x ∧ err s'.1 = None.
Proof.
  destruct s as [rp w]. unfold Result_store.
  destruct (released rp) eqn:Hrel; [by destruct res|].
  destruct e as [e|]; [done|].
  destruct (captureProvenance ctx res) as [capture [ce|]].
  - by destruct res.
  - intros [= <- <-]. simpl. by rewrite Hrel.
Qed.

Lemma Result_callback_success_inv (during before : list Ctx) (ctx : Ctx)
    (s s' : State) (r : Ref) :
  Result_callback during before ctx s = (Returns (Some r, None), s') →
  released s'.1 = false ∧ v s'.1 = Some r ∧ err s'.1 = None.
Proof.
  unfold Result_callback.
  destruct (released s.1) eqn:Hrel; [done|].
  case_bool_decide as Hmemo.
  - by intros [= Hv Herr <-].
  - destruct (loadResult during ctx s) as [[res e] s1].
    destruct e as [e|].
    + destruct (Done ctx && IsCanceled ctx e); [done|].
      apply Result_store_success_inv.
    + apply Result_store_success_inv.
Qed.

Lemma Result_with_success_inv (during before : list Ctx) (ctx : Ctx)
    (s s' : State) (r : Ref) :
  Result_with during before ctx s = (Returns (Some r, None), s') →
  released s'.1 = false ∧ v s'.1 = Some r ∧ err s'.1 = None.
Proof.
  unfold Result_with.
  destruct (Result_callback during before ctx s) as [out s1] eqn:Hcb.
  destruct out as [[res e]| |]; [|done..].
  intros [= Hw <-].
  destruct (wrapError s1.1 e) as [e'| |] eqn:Hwrap; [|done..].
  simpl in Hw. injection Hw as -> ->.
  apply wrapError_nil_inv in Hwrap as ->.
  by apply Result_callback_success_inv in Hcb.
Qed.

(** C1.  Once a [Result] call on a proxy has returned a result and a nil
    error, every later [Result] call on it, whatever its context, returns
    that same result and a nil error and leaves the proxy and its
    surroundings as they were: in particular the evaluation is not run
    again. *)
Theorem Result_memoized (during before : list Ctx) (ctx : Ctx) (s s' : State) (r : Ref) :
  Result_with during before ctx s = (Returns (Some r, None), s') →
  ∀ ctxs : list Ctx,
    Results ctxs s' = (replicate (length ctxs) (Returns (Some r, None)), s')
    ∧ evaluations (Results ctxs s').2.2 = evaluations s'.2.
Proof.
  intros Hfirst ctxs.
  apply Result_with_success_inv in Hfirst as (Hrel & Hv & Herr).
  assert (Results ctxs s' = (replicate (length ctxs) (Returns (Some r, None)), s'))
    as Hall.
  { induction ctxs as [|c ctxs IH]; simpl; [done|].
    unfold Result. rewrite (Result_memo [] [] c s' r) by done.
    by rewrite IH. }
  split; [done|]. by rewrite Hall.
Qed.

(** What a [Release] call does to the state, whatever it returns. *)
Lemma Release_effects (ctx : Ctx) (rp : resultProxy) (w : World) :
  let s' := (Release ctx (rp, w)).2 in
  releaseLog s'.2 = releaseLog w ++ errResults rp ++ option_list (v rp)
  ∧ warnLog s'.2
    = warnLog w ++ (if released rp && bool_decide (is_Some (v rp))
                    then ["release of already released result"] else [])
  ∧ evaluations s'.2 = evaluations w
  ∧ ownerBorrowed s'.2 = ownerBorrowed w
  ∧ v s'.1 = v rp ∧ err s'.1 = err rp ∧ errResults s'.1 = errResults rp
  ∧ provenance s'.1 = provenance rp ∧ req_Definition s'.1 = req_Definition rp.
Proof.
  unfold Release. rewrite Release_errResults_spec.
  destruct rp as [def rel [res|] e rs prov]; simpl;
    destruct (last_error (release_errors (releaseLog w) rs)); destruct rel; simpl;
    rewrite ?app_nil_r, <- ?app_assoc; done.
Qed.


(** The remaining case: a partial release failed and the proxy holds a
    result.  [Release] returns what the release of that result returned and
    leaves [released] as it was. *)
Lemma Release_early_return (ctx : Ctx) (rp : resultProxy) (w : World)
    (res : Ref) (e : error) :
  v rp = Some res →
  last_error (release_errors (releaseLog w) (errResults rp)) = Some e →
  (Release ctx (rp, w)).1 = resultRelease (releaseLog w ++ errResults rp) res
  ∧ released (Release ctx (rp, w)).2.1 = released rp.
Proof.
  intros Hv Hpartial. unfold Release. rewrite Release_errResults_spec.
  rewrite Hv, Hpartial. unfold Result_Release. simpl.
  by destruct (released rp).
Qed.

Lemma loadResult_alone (ctx : Ctx) (rp : resultProxy) (w : World) :
  loadResult [] ctx (rp, w)
  = (evaluate (evaluations w) ctx,
     match (evaluate (evaluations w) ctx).2 ≫= asExecError with
     | Some (ptr, refs) => (append_errResults refs rp, borrow ptr (count_evaluation w))
     | None => (rp, count_evaluation w)
     end).
Proof.
  unfold loadResult. simpl.
  by destruct (_ ≫= asExecError) as [[ptr refs]|].
Qed.

Lemma Result_store_evaluations (ctx : Ctx) (res : option Ref) (e : option error)
    (s : State) :
  evaluations (Result_store ctx res e s).2.2 = evaluations s.2.
Proof.
  destruct s as [rp w]. unfold Result_store.
  destruct (released rp); [by destruct res|].
  destruct e; [done|].
  destruct (captureProvenance ctx res) as [capture [ce|]]; [|done].
  by destruct res.
Qed.

Lemma Result_with_state (during before : list Ctx) (ctx : Ctx) (s : State) :
  (Result_with during before ctx s).2 = (Result_callback during before ctx s).2.
Proof.
  unfold Result_with.
  destruct (Result_callback during before ctx s) as [[[res e]| |] s1]; done.
Qed.

(** A [Result] call on a proxy that is neither released nor holds a terminal
    outcome runs the evaluation exactly once. *)
Lemma Result_evaluates (ctx : Ctx) (s : State) :
  released s.1 = false → v s.1 = None → err s.1 = None →
  evaluations (Result ctx s).2.2 = S (evaluations s.2).
Proof.
  intros Hrel Hv Herr. unfold Result. rewrite Result_with_state.
  destruct s as [rp w]. simpl in *. unfold Result_callback. simpl.
  rewrite Hrel, Hv, Herr.
  rewrite bool_decide_false by (by intros [[? ?]|[? ?]]).
  rewrite loadResult_alone.
  destruct (evaluate (evaluations w) ctx) as [res e].
  assert (∀ s1 : State, evaluations s1.2 = S (evaluations w) →
            evaluations (Result_store ctx res e (Releases [] s1)).2.2
            = S (evaluations w)) as Hstore.
  { intros s1 Hs1. by rewrite Result_store_evaluations. }
  destruct e as [e|]; simpl.
  - destruct (Done ctx && IsCanceled ctx e).
    + by destruct (asExecError e) as [[ptr refs]|].
    + apply Hstore. by destruct (asExecError e) as [[ptr refs]|].
  - by apply Hstore.
Qed.

(** The state a canceled evaluation leaves behind. *)
Lemma Result_canceled (ctx : Ctx) (rp : resultProxy) (w : World)
    (res : option Ref) (e : error) :
  released rp = false → v rp = None → err rp = None →
  evaluate (evaluations w) ctx = (res, Some e) →
  Done ctx = true → IsCanceled ctx e = true →
  Result_callback [] [] ctx (rp, w)
  = (Returns (res, Some e),
     match asExecError e with
     | Some (ptr, refs) => (append_errResults refs rp, borrow ptr (count_evaluation w))
     | None => (rp, count_evaluation w)
     end).
Proof.
  intros Hrel Hv Herr Heval Hdone Hcanceled. unfold Result_callback. simpl.
  rewrite Hrel, Hv, Herr.
  rewrite bool_decide_false by (by intros [[? ?]|[? ?]]).
  rewrite loadResult_alone, Heval. simpl.
  by rewrite Hdone, Hcanceled.
Qed.

(** C4.  When the evaluation fails, the caller's context is done and the
    failure is classified as a cancellation, the proxy records no terminal
    outcome: it holds neither a result nor an error afterwards and is not
    released.  A later [Result] call, with any context, runs the evaluation
    again, and returns the result of that evaluation when it succeeds. *)
Theorem Result_canceled_not_memoized (ctx : Ctx) (s : State)
    (res : option Ref) (e : error) :
  released s.1 = false → v s.1 = None → err s.1 = None →
  evaluate (evaluations s.2) ctx = (res, Some e) →
  Done ctx = true → IsCanceled ctx e = true →
  let s1 := (Result ctx s).2 in
  v s1.1 = None ∧ err s1.1 = None ∧ released s1.1 = false
  ∧ evaluations s1.2 = S (evaluations s.2)
  ∧ ∀ ctx2 : Ctx,
      evaluations (Result ctx2 s1).2.2 = S (evaluations s1.2)
      ∧ ∀ r2 : Ref,
          evaluate (evaluations s1.2) ctx2 = (Some r2, None) →
          (captureProvenance ctx2 (Some r2)).2 = None →
          (Result ctx2 s1).1 = Returns (Some r2, None).
Proof.
  intros Hrel Hv Herr Heval Hdone Hcanceled s1.
  assert (v s1.1 = None ∧ err s1.1 = None ∧ released s1.1 = false) as (Hv1 & Herr1 & Hrel1).
  { subst s1. unfold Result. rewrite Result_with_state.
    destruct s as [rp w]. simpl in *.
    rewrite (Result_canceled ctx rp w res e) by done. simpl.
    by destruct (asExecError e) as [[ptr refs]|]. }
  split; [done|]. split; [done|]. split; [done|].
  split; [by apply Result_evaluates|].
  intros ctx2. split; [by apply Result_evaluates|].
  intros r2 Heval2 Hcapture.
  destruct s1 as [rp1 w1]. simpl in *.
  unfold Result, Result_with, Result_callback. simpl.
  rewrite Hrel1, Hv1, Herr1.
  rewrite bool_decide_false by (by intros [[? ?]|[? ?]]).
  rewrite loadResult_alone, Heval2. unfold Result_store, Releases. simpl.
  rewrite Hrel1.
  destruct (captureProvenance ctx2 (Some r2)) as [capture cerr].
  simpl in Hcapture. by rewrite Hcapture.
Qed.

Lemma released_by_spec (ctx : Ctx) (s : State) :
  released_by ctx s = errResults s.1 ++ option_list (v s.1).
Proof.
  destruct s as [rp w]. unfold released_by.
  destruct (Release_effects ctx rp w) as (-> & _). simpl.
  by rewrite drop_app_length.
Qed.

(** The state a failed evaluation leaves behind when the failure is an
    [ExecError]: the exposed results are retained and the error object is
    marked, on the canceled path and on the memoizing path alike. *)
Lemma Result_exec_error_state (ctx : Ctx) (rp : resultProxy) (w : World)
    (res : option Ref) (e : error) (ptr : nat) (refs : list Ref) :
  released rp = false → v rp = None → err rp = None →
  evaluate (evaluations w) ctx = (res, Some e) →
  asExecError e = Some (ptr, refs) →
  ∃ res' e',
    (Result ctx (rp, w)).2
    = (mkResultProxy (req_Definition rp) false res' e' (errResults rp ++ refs)
         (provenance rp),
       borrow ptr (count_evaluation w))
    ∧ (res' = None ∨ res' = res).
Proof.
  intros Hrel Hv Herr Heval Hexec. unfold Result. rewrite Result_with_state.
  unfold Result_callback. simpl. rewrite Hrel, Hv, Herr.
  rewrite bool_decide_false by (by intros [[? ?]|[? ?]]).
  rewrite loadResult_alone, Heval. simpl. rewrite Hexec.
  destruct (Done ctx && IsCanceled ctx e).
  - exists None, None. simpl. unfold append_errResults.
    rewrite Hrel, Hv, Herr. eauto.
  - exists res, (Some e). unfold Result_store, Releases. simpl.
    rewrite Hrel. unfold set_outcome. simpl. rewrite Hrel. eauto.
Qed.

(** [Release] calls of other goroutines leave the retained results, the
    terminal outcome, the marks on error objects and the evaluation count as
    they are. *)
Lemma Releases_preserves (ctxs : list Ctx) (s : State) :
  v (Releases ctxs s).1 = v s.1
  ∧ err (Releases ctxs s).1 = err s.1
  ∧ errResults (Releases ctxs s).1 = errResults s.1
  ∧ ownerBorrowed (Releases ctxs s).2 = ownerBorrowed s.2
  ∧ evaluations (Releases ctxs s).2 = evaluations s.2.
Proof.
  unfold Releases. revert s.
  induction ctxs as [|c ctxs IH]; intros [rp w]; simpl; [done|].
  destruct (IH (Release c (rp, w)).2) as (-> & -> & -> & -> & ->).
  by destruct (Release_effects c rp w) as (_ & _ & -> & -> & -> & -> & -> & _).
Qed.

Lemma Releases_v (ctxs : list Ctx) (s : State) :
  v (Releases ctxs s).1 = v s.1.
Proof. apply Releases_preserves. Qed.

(** The second critical section, entered with a failed evaluation, touches
    neither the retained results nor the marks on error objects. *)
Lemma Result_store_failed (ctx : Ctx) (res : option Ref) (e : error) (s : State) :
  errResults (Result_store ctx res (Some e) s).2.1 = errResults s.1
  ∧ ownerBorrowed (Result_store ctx res (Some e) s).2.2 = ownerBorrowed s.2
  ∧ (v (Result_store ctx res (Some e) s).2.1 = v s.1
     ∨ v (Result_store ctx res (Some e) s).2.1 = res).
Proof.
  destruct s as [rp w]. unfold Result_store.
  destruct (released rp); simpl; [|by auto].
  destruct res; simpl; by auto.
Qed.

(** The same with [Release] calls of other goroutines overlapping the
    [Result] call. *)
Lemma Result_with_exec_error (during before : list Ctx) (ctx : Ctx)
    (rp : resultProxy) (w : World)
    (res : option Ref) (e : error) (ptr : nat) (refs : list Ref) :
  released rp = false → v rp = None → err rp = None →
  evaluate (evaluations w) ctx = (res, Some e) →
  asExecError e = Some (ptr, refs) →
  let s1 := (Result_with during before ctx (rp, w)).2 in
  errResults s1.1 = errResults rp ++ refs
  ∧ ptr ∈ ownerBorrowed s1.2
  ∧ (v s1.1 = None ∨ v s1.1 = res).
Proof.
  intros Hrel Hv Herr Heval Hexec s1. subst s1. rewrite Result_with_state.
  unfold Result_callback. simpl. rewrite Hrel, Hv, Herr.
  rewrite bool_decide_false by (by intros [[? ?]|[? ?]]).
  unfold loadResult. simpl. rewrite Heval. simpl. rewrite Hexec.
  destruct (Releases_preserves during (rp, count_evaluation w))
    as (Hvd & _ & Hrsd & Hbd & _).
  destruct (Releases during (rp, count_evaluation w)) as [rpd wd]. simpl in *.
  assert (ptr ∈ ownerBorrowed (borrow ptr wd)) as Hmarked
    by (apply elem_of_union_l; by apply elem_of_singleton).
  destruct (Done ctx && IsCanceled ctx e); simpl.
  - rewrite Hrsd, Hvd, Hv. auto.
  - destruct (Releases_preserves before (append_errResults refs rpd, borrow ptr wd))
      as (Hvb & _ & Hrsb & Hbb & _).
    destruct (Result_store_failed ctx res e
                (Releases before (append_errResults refs rpd, borrow ptr wd)))
      as (-> & -> & Hvs).
    rewrite Hrsb, Hbb. simpl. rewrite Hrsd. split; [done|]. split; [done|].
    destruct Hvs as [-> | ->]; [|by auto].
    rewrite Hvb. simpl. rewrite Hvd, Hv. auto.
Qed.

(** C3.  When the evaluation fails with a structured execution error, the
    proxy retains the results the error exposes and marks the error object,
    which turns the error's own release logic into a no-op; this holds also
    when [Release] calls of other goroutines overlap the [Result] call, and
    a [Result] call that runs alone releases nothing itself.  A [Release]
    call then releases exactly the retained results followed by the memoized
    result; when these are distinct objects, each exposed result is released
    by that call (no leak) and none is released twice (no double free). *)
Theorem errResults_released_once (during before : list Ctx) (ctx : Ctx) (s : State)
    (res : option Ref) (e : error) (ptr : nat) (refs : list Ref) :
  released s.1 = false → v s.1 = None → err s.1 = None →
  evaluate (evaluations s.2) ctx = (res, Some e) →
  asExecError e = Some (ptr, refs) →
  let s1 := (Result_with during before ctx s).2 in
  errResults s1.1 = errResults s.1 ++ refs
  ∧ ptr ∈ ownerBorrowed s1.2
  ∧ ExecError_Release ptr refs s1.2 = s1.2
  ∧ releaseLog (Result ctx s).2.2 = releaseLog s.2
  ∧ ∀ ctx' : Ctx,
      released_by ctx' s1 = errResults s1.1 ++ option_list (v s1.1)
      ∧ (NoDup (errResults s.1 ++ refs ++ option_list res) →
         NoDup (released_by ctx' s1) ∧ ∀ r, r ∈ refs → r ∈ released_by ctx' s1).
Proof.
  intros Hrel Hv Herr Heval Hexec s1. destruct s as [rp w]. simpl in *.
  destruct (Result_with_exec_error during before ctx rp w res e ptr refs)
    as (Hrs & Hmarked & Hres'); [done..|].
  fold s1 in Hrs, Hmarked, Hres'.
  split; [done|]. split; [done|].
  split; [unfold ExecError_Release; by rewrite decide_True|].
  split.
  { destruct (Result_exec_error_state ctx rp w res e ptr refs)
      as (res' & e' & -> & _); done. }
  intros ctx'. rewrite released_by_spec, Hrs.
  split; [done|].
  intros Hdistinct. split.
  - destruct Hres' as [-> | ->].
    + simpl. rewrite app_nil_r. rewrite app_assoc in Hdistinct.
      by apply NoDup_app in Hdistinct as (? & _).
    + by rewrite <- app_assoc.
  - intros r Hr. apply elem_of_app. left. apply elem_of_app. by right.
Qed.

(** A proxy released while its evaluation is in flight releases the result
    just computed instead of retaining it and reports a released-state
    error. *)
Lemma Result_released_in_flight (during before : list Ctx) (ctx : Ctx) (s : State)
    (r : Ref) :
  released s.1 = false → v s.1 = None → err s.1 = None →
  evaluate (evaluations s.2) ctx = (Some r, None) →
  let mid := Releases before (Releases during (s.1, count_evaluation s.2)) in
  released mid.1 = true →
  Result_with during before ctx s
  = (Returns (None, Some (Errorf "evaluating released result")),
     (mid.1, log_release r mid.2))
  ∧ v mid.1 = None.
Proof.
  intros Hrel Hv Herr Heval mid Hmid.
  split; [|subst mid; by rewrite !Releases_v].
  unfold Result_with, Result_callback. rewrite Hrel, Hv, Herr.
  rewrite bool_decide_false by (by intros [[? ?]|[? ?]]).
  unfold loadResult. rewrite Heval. simpl.
  destruct (Releases during (s.1, count_evaluation s.2)) as [rp1 w1] eqn:Hduring.
  fold mid. destruct mid as [rp2 w2]. simpl in Hmid.
  unfold Result_store. by rewrite Hmid.
Qed.


End resultProxy_proofs.

(** C1, on a build that succeeds at once. *)
Lemma Result_memoized_witness :
  @Result_with built [] [] ctx_live fresh
  = (Returns (Some 1, None), (@Result built ctx_live fresh).2)
  ∧ @Results built [ctx_live; ctx_canceled] (@Result built ctx_live fresh).2
    = ([Returns (Some 1, None); Returns (Some 1, None)],
       (@Result built ctx_live fresh).2).
Proof.
  split; [reflexivity|].
  apply (@Result_memoized built [] [] ctx_live fresh _ 1 eq_refl
           [ctx_live; ctx_canceled]).
Defined.

(** C2.  A step canceled while running exposes results 7 and 8; the retried
    build succeeds with result 1.  [Release] then fails to release result 7,
    releases result 1, returns nil and leaves [released] unset; the next
    [Result] call returns the released result 1 and a nil error instead of a
    released-state error. *)
Theorem Release_can_leave_proxy_usable :
  let s1 := (@Result canceled_then_built ctx_canceled fresh).2 in
  let s2 := (@Result canceled_then_built ctx_live s1).2 in
  let s3 := (@Release canceled_then_built ctx_live s2).2 in
  (@Result canceled_then_built ctx_live s1).1 = Returns (Some 1, None)
  ∧ errResults s2.1 = [7; 8]
  ∧ (@Release canceled_then_built ctx_live s2).1 = None
  ∧ releaseLog s3.2 = [7; 8; 1]
  ∧ released s3.1 = false
  ∧ (@Result canceled_then_built ctx_live s3).1 = Returns (Some 1, None)
  ∧ evaluations (@Result canceled_then_built ctx_live s3).2.2 = 2.
Proof. repeat split; vm_compute; reflexivity. Qed.

(** C4, on a step canceled while running and rebuilt afterwards. *)
Lemma Result_canceled_not_memoized_witness :
  let s1 := (@Result canceled_then_built ctx_canceled fresh).2 in
  v s1.1 = None ∧ err s1.1 = None
  ∧ (@Result canceled_then_built ctx_live s1).1 = Returns (Some 1, None).
Proof.
  destruct (@Result_canceled_not_memoized canceled_then_built ctx_canceled fresh
              None (ExecError 0 [7; 8] Canceled)
              eq_refl eq_refl eq_refl eq_refl eq_refl eq_refl)
    as (Hv & Herr & _ & _ & Hnext).
  split; [exact Hv|]. split; [exact Herr|].
  exact (proj2 (Hnext ctx_live) 1 eq_refl eq_refl).
Defined.

(** C3, on a step that fails exposing the results 7 and 8. *)
Lemma errResults_released_once_witness :
  let s1 := (@Result failed_step ctx_live fresh).2 in
  errResults s1.1 = [7; 8]
  ∧ @released_by failed_step ctx_live s1 = [7; 8]
  ∧ NoDup (@released_by failed_step ctx_live s1).
Proof.
  destruct (@errResults_released_once failed_step [] [] ctx_live fresh None
              (VertexError "sha256:aa" (ExecError 0 [7; 8] (Errorf "exit code: 1")))
              0 [7; 8] eq_refl eq_refl eq_refl eq_refl eq_refl)
    as (Hrs & _ & _ & _ & Hrelease).
  split; [exact Hrs|].
  destruct (Hrelease ctx_live) as [Hby Hdistinct].
  split; [exact Hby|].
  apply Hdistinct. by apply (bool_decide_unpack _).
Defined.



(** ** The error translation *)




(** ** Lazy cache managers *)

(** C7: after a resolution that failed, [Query] returns no keys and no error
    instead of the recorded error; after a resolution that yields no manager,
    [Load] is not a no-op. *)
Lemma Query_ignores_resolution_error :
  let failed := lcm.resolve (None, Some (Errorf "unknown cache importer: s3"))
                  (lcm.newLazyCacheManager "s3:17") in
  let absent := lcm.resolve (None, None) (lcm.newLazyCacheManager "s3:17") in
  lcm.wait failed = Returns (Some (Errorf "unknown cache importer: s3"))
  ∧ lcm.Query failed [] 0%N "sha256:aa" 0%N = Returns ([], None)
  ∧ lcm.Records failed "key" = Returns ([], None)
  ∧ lcm.Load absent "record" = Panics.
Proof. repeat split. Qed.

(** C7, as amended.  Until the resolution of a lazy cache manager has
    finished, [Query], [Records], [Load] and [Save] block.  Once it has
    finished with an error, [Load] and [Save] fail with that error, while
    [Query] and [Records] return an empty result and no error.  Once it has
    finished without error and without a manager, [Query] and [Records]
    return an empty result and no error. *)
Theorem lazy_manager_operations (id : string) (fn : option CacheManager * option error) :
  let pending := lcm.newLazyCacheManager id in
  let l := lcm.resolve fn pending in
  ((∀ inp i dgst o, lcm.Query pending inp i dgst o = Blocks)
   ∧ (∀ ck, lcm.Records pending ck = Blocks)
   ∧ (∀ rec, lcm.Load pending rec = Blocks)
   ∧ (∀ key s t, lcm.Save pending key s t = Blocks))
  ∧ (∀ e, fn.2 = Some e →
       lcm.wait l = Returns (Some e)
       ∧ (∀ inp i dgst o, lcm.Query l inp i dgst o = Returns ([], None))
       ∧ (∀ ck, lcm.Records l ck = Returns ([], None))
       ∧ (∀ rec, lcm.Load l rec = Returns (None, Some e))
       ∧ (∀ key s t, lcm.Save l key s t = Returns (None, Some e)))
  ∧ (fn = (None, None) →
       lcm.wait l = Returns None
       ∧ (∀ inp i dgst o, lcm.Query l inp i dgst o = Returns ([], None))
       ∧ (∀ ck, lcm.Records l ck = Returns ([], None))).
Proof.
  intros pending l. split; [done|]. split.
  - intros e He. subst l.
    unfold lcm.resolve, lcm.Query, lcm.Records, lcm.Load, lcm.Save, lcm.wait.
    by rewrite He.
  - by intros ->.
Qed.

(** C7 as amended, on a manager whose importer is unknown. *)
Lemma lazy_manager_operations_witness :
  let l := lcm.resolve (None, Some (Errorf "unknown cache importer: s3"))
             (lcm.newLazyCacheManager "s3:17") in
  lcm.Load l "record" = Returns (None, Some (Errorf "unknown cache importer: s3"))
  ∧ lcm.Query l [] 0%N "sha256:aa" 0%N = Returns ([], None).
Proof.
  destruct (lazy_manager_operations "s3:17"
              (None, Some (Errorf "unknown cache importer: s3")))
    as (_ & Hfailed & _).
  destruct (Hfailed (Errorf "unknown cache importer: s3") eq_refl)
    as (_ & Hquery & _ & Hload & _).
  split; [exact (Hload "record")|exact (Hquery [] 0%N "sha256:aa" 0%N)].
Defined.

(** ** The executor bridge *)

Section executor_proofs.
Context `{Backend}.

(** A process rejected by the validation never reaches the executor: [Run]
    and [Exec] return the validation error and leave the bridge as it was. *)
Lemma Run_Exec_rejected (id : string) (p : executor.ProcessInfo) (b : llbBridge)
    (e : error) :
  validateEntitlements p = Some e →
  Run id p b = (Returns (None, Some e), b) ∧ Exec id p b = (Returns (Some e), b).
Proof. intros Hval. unfold Run, Exec. by rewrite Hval. Qed.

(** C8.  When the process asks for host networking or for the insecure
    security mode and the build was not granted it, the validation fails,
    and [Run] and [Exec] return that entitlement error with the bridge
    unchanged: the executor was not loaded ([executorOnce] and the count of
    [resolveWorker] calls are as before) and no call reached it. *)
Theorem Run_Exec_validate_first (id : string) (p : executor.ProcessInfo)
    (b : llbBridge) (ent : entitlements.Set_) :
  loadEntitlements = (ent, None) →
  entitlement_mismatch ent p →
  ∃ e : error,
    validateEntitlements p = Some e
    ∧ Run id p b = (Returns (None, Some e), b)
    ∧ Exec id p b = (Returns (Some e), b).
Proof.
  intros Hload Hmismatch.
  assert (is_Some (validateEntitlements p)) as [e He].
  { unfold validateEntitlements, entitlements.Check. rewrite Hload.
    cbn [entitlements.NetworkHost entitlements.SecurityInsecure].
    destruct Hmismatch as [[Hnet Hgrant]|[Hsec Hgrant]]; rewrite Hgrant.
    - rewrite Hnet. rewrite (bool_decide_true (pb.NetMode_HOST = _)) by done.
      by eexists.
    - rewrite Hsec. rewrite (bool_decide_true (pb.SecurityMode_INSECURE = _)) by done.
      destruct (bool_decide _ && negb _); by eexists. }
  exists e. split; [done|]. by apply Run_Exec_rejected.
Qed.

(** C10.  The validation reads nothing of the process but its network mode
    and its security mode; and a process that asks neither for host
    networking nor for the insecure security mode passes it whatever the
    granted entitlements are, provided they load. *)
Theorem validateEntitlements_sandboxed (p : executor.ProcessInfo)
    (ent : entitlements.Set_) :
  loadEntitlements = (ent, None) →
  executor.NetMode (executor.pMeta p) ≠ pb.NetMode_HOST →
  executor.SecurityMode (executor.pMeta p) ≠ pb.SecurityMode_INSECURE →
  validateEntitlements p = None
  ∧ ∀ p' : executor.ProcessInfo,
      executor.NetMode (executor.pMeta p') = executor.NetMode (executor.pMeta p) →
      executor.SecurityMode (executor.pMeta p')
      = executor.SecurityMode (executor.pMeta p) →
      validateEntitlements p' = None.
Proof.
  intros Hload Hnet Hsec.
  assert (validateEntitlements p = None) as Hp.
  { unfold validateEntitlements, entitlements.Check. rewrite Hload.
    by rewrite !bool_decide_false by done. }
  split; [done|].
  intros p' Hnet' Hsec'. rewrite <- Hp. unfold validateEntitlements.
  by rewrite Hnet', Hsec'.
Qed.

End executor_proofs.

(** C8, on a host-network process of a build granted nothing. *)
Lemma Run_Exec_validate_first_witness :
  @Exec ungranted "step" host_process newBridge
  = (Returns (Some (Errorf "network.host is not allowed")), newBridge).
Proof.
  destruct (@Run_Exec_validate_first ungranted "step" host_process newBridge
              (entitlements.mkSet false false) eq_refl
              (or_introl (conj eq_refl eq_refl)))
    as (e & Hval & _ & Hexec).
  injection Hval as <-. exact Hexec.
Defined.

(** C10, on a sandboxed process of a build granted nothing. *)
Lemma validateEntitlements_sandboxed_witness :
  @validateEntitlements ungranted sandboxed_process = None.
Proof.
  assert (pb.NetMode_UNSET ≠ pb.NetMode_HOST) as Hnet by discriminate.
  assert (pb.SecurityMode_SANDBOX ≠ pb.SecurityMode_INSECURE) as Hsec by discriminate.
  exact (proj1 (@validateEntitlements_sandboxed ungranted sandboxed_process
                  (entitlements.mkSet false false) eq_refl Hnet Hsec)).
Defined.

(** ** The cache-manager registry *)

Section registry_proofs.
Context `{Importers}.

Lemma registry_ok_new : registry_ok newRegistry.
Proof. split; [by intros k p|by intros p l im]. Qed.

(** One iteration keeps the invariant, binds the key to the handle it
    returns, and changes no binding already made. *)
Lemma loadResult_cm_spec (cmID : string) (im : CacheOptionsEntry) (b : Registry) :
  registry_ok b →
  registry_ok (loadResult_cm cmID im b).2
  ∧ cms (loadResult_cm cmID im b).2 !! cmID = Some (loadResult_cm cmID im b).1
  ∧ cms b ⊆ cms (loadResult_cm cmID im b).2.
Proof.
  intros [Hmap Hheap]. unfold loadResult_cm.
  destruct (cms b !! cmID) as [prevCm|] eqn:Hprev; simpl; [done|].
  split; [split|split].
  - intros k p. simpl. rewrite lookup_insert. case_decide as Hk.
    + intros [= <-]. subst k. exists (lcm.newLazyCacheManager cmID), im.
      split; [|done]. rewrite lookup_app_r by done. by rewrite Nat.sub_diag.
    + intros Hp. destruct (Hmap k p Hp) as (l & im' & Hl & Hid).
      exists l, im'. split; [|done]. by apply lookup_app_l_Some.
  - intros p l im'. simpl. intros Hp.
    apply lookup_app_Some in Hp as [Hp|[Hlen Hp]].
    + specialize (Hheap p l im' Hp).
      rewrite lookup_insert_ne; [done|]. intros ->. congruence.
    + apply list_lookup_singleton_Some in Hp as [Hzero [= <- <-]]. simpl.
      rewrite lookup_insert_eq. f_equal. lia.
  - by rewrite lookup_insert_eq.
  - by apply insert_subseteq.
Qed.

(** The loop succeeds exactly when every key can be computed. *)
Lemma loadResult_cms_succeeds (ims : list CacheOptionsEntry) (b : Registry) :
  (loadResult_cms ims b).1.2 = None ↔ Forall (λ im, (cmKey im).2 = None) ims.
Proof.
  revert b. induction ims as [|im ims IH]; intros b; simpl; [done|].
  rewrite Forall_cons.
  destruct (cmKey im) as [cmID [e|]]; simpl; [by split; [|intros []]|].
  destruct (loadResult_cm cmID im b) as [cm b1].
  specialize (IH b1).
  destruct (loadResult_cms ims b1) as [[cms' e'] b2]. simpl in *.
  rewrite IH. by split; [|intros []].
Qed.

(** After the loop every entry's handle is the one its key is bound to. *)
Lemma loadResult_cms_spec (ims : list CacheOptionsEntry) (b b' : Registry)
    (hs : list nat) :
  registry_ok b →
  loadResult_cms ims b = ((hs, None), b') →
  registry_ok b' ∧ cms b ⊆ cms b'
  ∧ Forall2 (λ im p, ∃ k, cmKey im = (k, None) ∧ cms b' !! k = Some p) ims hs.
Proof.
  revert b hs. induction ims as [|im ims IH]; intros b hs Hok; simpl.
  - intros [= <- <-]. split; [done|]. split; [done|]. constructor.
  - destruct (cmKey im) as [cmID [e|]] eqn:Hkey; [done|].
    destruct (loadResult_cm_spec cmID im b Hok) as (Hok1 & Hbound & Hsub1).
    destruct (loadResult_cm cmID im b) as [cm b1]. simpl in *.
    destruct (loadResult_cms ims b1) as [[hs' e'] b2] eqn:Hrest.
    destruct e' as [e'|]; [done|]. intros [= <- <-].
    destruct (IH b1 hs' Hok1 Hrest) as (Hok2 & Hsub2 & Hall).
    split; [done|]. split; [by etrans|].
    constructor; [|done].
    exists cmID. split; [done|]. by eapply lookup_weaken.
Qed.


(** The goroutine of a manager changes neither the map nor any key. *)
Lemma run_goroutine_ok (p : nat) (b : Registry) :
  registry_ok b → registry_ok (run_goroutine p b) ∧ cms (run_goroutine p b) = cms b.
Proof.
  intros [Hmap Hheap]. unfold run_goroutine.
  destruct (heap b !! p) as [[l im]|] eqn:Hp; [|done].
  destruct (lcm.waitCh l); [done|]. simpl. split; [|done].
  assert (lcm.id (lcm.resolve (importFn (lcm.id l) im) l) = lcm.id l) as Hid.
  { unfold lcm.resolve. by destruct (importFn _ _).2. }
  split.
  - intros k q Hq. simpl in *. destruct (Hmap k q Hq) as (l' & im' & Hl' & Hk).
    destruct (decide (q = p)) as [->|Hne].
    + rewrite list_lookup_insert_eq by by eapply lookup_lt_Some.
      eexists _, _. split; [done|]. rewrite Hid. congruence.
    + rewrite list_lookup_insert_ne by done. by eexists _, _.
  - intros q l' im'. simpl. destruct (decide (q = p)) as [->|Hne].
    + rewrite list_lookup_insert_eq by by eapply lookup_lt_Some.
      intros [= <- <-]. rewrite Hid. by eapply Hheap.
    + rewrite list_lookup_insert_ne by done. apply Hheap.
Qed.



End registry_proofs.


(** * Further properties *)

(** ** Result proxies under arbitrary sequences of calls *)

Section resultProxy_calls.
Context `{Collaborators}.

#[local] Arguments Result_store : simpl never.
#[local] Arguments Releases : simpl never.
#[local] Arguments Release : simpl never.
#[local] Arguments Result_with : simpl never.
#[local] Arguments wrapError : simpl never.

Lemma Release_keeps_released (ctx : Ctx) (s : State) :
  released s.1 = true → released (Release ctx s).2.1 = true.
Proof.
  destruct s as [rp w]. intros Hrel. unfold Release. simpl in Hrel.
  destruct (Release_errResults (errResults rp) None w) as [e w1].
  destruct (v rp) as [res|]; [|done].
  destruct e; simpl; by rewrite ?Hrel.
Qed.

Lemma Result_with_terminal (during before : list Ctx) (ctx : Ctx) (s : State) :
  is_Some (v s.1) ∨ is_Some (err s.1) →
  (Result_with during before ctx s).2 = s.
Proof.
  intros Hterminal. rewrite Result_with_state. unfold Result_callback.
  destruct (released s.1); [done|].
  by rewrite bool_decide_true.
Qed.

(** X1.  A failure that is not classified as a cancellation is memoized:
    the proxy stores the error, and every later [Result] call returns exactly
    what the failing call returned and changes nothing, so the evaluation is
    not run again and the results of an [ExecError] are not retained twice. *)
Theorem Result_failure_memoized (ctx : Ctx) (s : State) (res : option Ref) (e : error) :
  released s.1 = false → v s.1 = None → err s.1 = None →
  evaluate (evaluations s.2) ctx = (res, Some e) →
  Done ctx && IsCanceled ctx e = false →
  err (Result ctx s).2.1 = Some e
  ∧ v (Result ctx s).2.1 = res
  ∧ ∀ ctxs : list Ctx,
      Results ctxs (Result ctx s).2
      = (replicate (length ctxs) (Result ctx s).1, (Result ctx s).2).
Proof.
  intros Hrel Hv Herr Heval Hlive. destruct s as [rp w]. simpl in *.
  assert (∃ rp1 w1,
            Result ctx (rp, w)
            = (go_map (pair res) (wrapError rp1 (Some e)), (rp1, w1))
            ∧ released rp1 = false ∧ v rp1 = res ∧ err rp1 = Some e)
    as (rp1 & w1 & Hfirst & Hrel1 & Hv1 & Herr1).
  { unfold Result, Result_with, Result_callback. simpl. rewrite Hrel, Hv, Herr.
    rewrite bool_decide_false by (by intros [[? ?]|[? ?]]).
    rewrite loadResult_alone, Heval. simpl. rewrite Hlive.
    unfold Releases, Result_store. simpl.
    destruct (asExecError e) as [[ptr refs]|]; simpl; rewrite Hrel.
    - exists (set_outcome res (Some e) (append_errResults refs rp)),
        (borrow ptr (count_evaluation w)).
      split; [done|]. simpl. by rewrite Hrel.
    - exists (set_outcome res (Some e) rp), (count_evaluation w).
      split; [done|]. simpl. by rewrite Hrel. }
  rewrite Hfirst. simpl. split; [done|]. split; [done|].
  intros ctxs. induction ctxs as [|c ctxs IH]; simpl; [done|].
  assert (Result c (rp1, w1)
          = (go_map (pair res) (wrapError rp1 (Some e)), (rp1, w1))) as ->.
  { unfold Result, Result_with, Result_callback. simpl. rewrite Hrel1, Hv1, Herr1.
    rewrite bool_decide_true by (right; by eexists). done. }
  by rewrite IH.
Qed.

(** X2.  When the evaluation succeeds with a result and the provenance
    capture fails, [Result] returns no result and an error, releases the
    result exactly once, and memoizes the error with no result: a later
    [Release] releases the retained partial results only, and a later
    [Result] returns the same error without a new evaluation. *)
Theorem Result_capture_failure (ctx : Ctx) (s : State) (r : Ref)
    (capture : option Capture) (ce : error) :
  released s.1 = false → v s.1 = None → err s.1 = None →
  evaluate (evaluations s.2) ctx = (Some r, None) →
  captureProvenance ctx (Some r) = (capture, Some ce) →
  ∃ e' : error,
    (Result ctx s).1 = Returns (None, Some e')
    ∧ releaseLog (Result ctx s).2.2 = releaseLog s.2 ++ [r]
    ∧ v (Result ctx s).2.1 = None ∧ err (Result ctx s).2.1 = Some e'
    ∧ Provenance (Result ctx s).2.1 = capture
    ∧ (∀ ctx', released_by ctx' (Result ctx s).2 = errResults s.1)
    ∧ (∀ ctx', Result ctx' (Result ctx s).2
               = (Returns (None, Some e'), (Result ctx s).2)).
Proof.
  intros Hrel Hv Herr Heval Hcapture. destruct s as [rp w]. simpl in *.
  exists (Errorf ("failed to capture provenance: " +:+ Error ce)).
  assert (Result ctx (rp, w)
          = (Returns (None, Some (Errorf ("failed to capture provenance: " +:+ Error ce))),
             (set_outcome None
                (Some (Errorf ("failed to capture provenance: " +:+ Error ce)))
                (set_provenance capture rp),
              log_release r (count_evaluation w)))) as ->.
  { unfold Result, Result_with, Result_callback. simpl. rewrite Hrel, Hv, Herr.
    rewrite bool_decide_false by (by intros [[? ?]|[? ?]]).
    rewrite loadResult_alone, Heval. simpl.
    unfold Releases, Result_store. simpl. by rewrite Hrel, Hcapture. }
  simpl. split; [done|]. split; [done|]. split; [done|]. split; [done|].
  split; [unfold Provenance; simpl; by destruct capture|].
  split.
  - intros ctx'. rewrite released_by_spec. simpl. by rewrite app_nil_r.
  - intros ctx'. unfold Result, Result_with, Result_callback. simpl. rewrite Hrel.
    by unfold wrapError.
Qed.

(** X3.  Release is permanent.  Once [released] is set, no sequence of
    [Result] and [Release] calls, overlapping or not, clears it, runs the
    evaluation or changes the terminal outcome, and every [Result] call
    fails with the released-state error and changes nothing. *)
Theorem released_is_permanent (cs : list ProxyCall) (s : State) :
  released s.1 = true →
  released (proxy_calls cs s).1 = true
  ∧ evaluations (proxy_calls cs s).2 = evaluations s.2
  ∧ v (proxy_calls cs s).1 = v s.1
  ∧ err (proxy_calls cs s).1 = err s.1
  ∧ ∀ during before ctx,
      Result_with during before ctx (proxy_calls cs s)
      = (Returns (None, Some (Errorf "accessing released result")), proxy_calls cs s).
Proof.
  unfold proxy_calls. revert s.
  induction cs as [|c cs IH]; intros s Hrel; simpl.
  - repeat (split; [done|]). intros during before ctx. by apply Result_released.
  - assert (released (proxy_call c s).1 = true
            ∧ evaluations (proxy_call c s).2 = evaluations s.2
            ∧ v (proxy_call c s).1 = v s.1 ∧ err (proxy_call c s).1 = err s.1)
      as (Hrel' & <- & <- & <-).
    { destruct c as [during before ctx|ctx]; simpl.
      - by rewrite Result_released.
      - split; [by apply Release_keeps_released|].
        destruct s as [rp w].
        by destruct (Release_effects ctx rp w) as (_ & _ & -> & _ & -> & -> & _). }
    by apply IH.
Qed.

(** X4.  A terminal outcome is final.  Once the proxy holds a result or an
    error, no sequence of [Result] and [Release] calls, overlapping or not,
    changes the result, the error, the provenance or the retained results,
    and none runs the evaluation. *)
Theorem terminal_outcome_is_final (cs : list ProxyCall) (s : State) :
  is_Some (v s.1) ∨ is_Some (err s.1) →
  v (proxy_calls cs s).1 = v s.1
  ∧ err (proxy_calls cs s).1 = err s.1
  ∧ Provenance (proxy_calls cs s).1 = Provenance s.1
  ∧ errResults (proxy_calls cs s).1 = errResults s.1
  ∧ evaluations (proxy_calls cs s).2 = evaluations s.2.
Proof.
  unfold proxy_calls. revert s.
  induction cs as [|c cs IH]; intros s Hterminal; simpl; [done|].
  assert (v (proxy_call c s).1 = v s.1 ∧ err (proxy_call c s).1 = err s.1
          ∧ provenance (proxy_call c s).1 = provenance s.1
          ∧ errResults (proxy_call c s).1 = errResults s.1
          ∧ evaluations (proxy_call c s).2 = evaluations s.2)
    as (Hv & Herr & Hprov & Hrs & Heval).
  { destruct c as [during before ctx|ctx]; simpl.
    - by rewrite Result_with_terminal.
    - destruct s as [rp w].
      by destruct (Release_effects ctx rp w)
        as (_ & _ & -> & _ & -> & -> & -> & -> & _). }
  destruct (IH (proxy_call c s)) as (-> & -> & Hp & -> & ->);
    [by rewrite Hv, Herr|].
  unfold Provenance in *. by rewrite Hp, Hprov.
Qed.

Lemma grows_refl (s : State) : grows s s.
Proof. by repeat split. Qed.

Lemma grows_trans (s1 s2 s3 : State) : grows s1 s2 → grows s2 s3 → grows s1 s3.
Proof.
  intros (? & ? & ? & ? & ?) (? & ? & ? & ? & ?).
  repeat split; by etrans.
Qed.

Lemma Release_grows (ctx : Ctx) (s : State) :
  grows s (Release ctx s).2 ∧ evaluations (Release ctx s).2.2 = evaluations s.2.
Proof.
  destruct s as [rp w].
  destruct (Release_effects ctx rp w)
    as (Hlog & Hwarn & Heval & Hborrow & _ & _ & Hrs & _).
  split; [|done]. unfold grows. simpl.
  rewrite Hlog, Hwarn, Heval, Hborrow, Hrs.
  repeat split; try done; by apply prefix_app_r.
Qed.

Lemma Releases_grows (ctxs : list Ctx) (s : State) :
  grows s (Releases ctxs s) ∧ evaluations (Releases ctxs s).2 = evaluations s.2.
Proof.
  unfold Releases. revert s.
  induction ctxs as [|c ctxs IH]; intros s; simpl; [split; [apply grows_refl|done]|].
  destruct (Release_grows c s) as [Hstep Heval].
  destruct (IH (Release c s).2) as [Hrest Heval'].
  split; [by eapply grows_trans|]. by rewrite Heval'.
Qed.

Lemma Result_store_grows (ctx : Ctx) (res : option Ref) (e : option error) (s : State) :
  grows s (Result_store ctx res e s).2.
Proof.
  destruct s as [rp w]. unfold Result_store, grows.
  destruct (released rp).
  - destruct res; simpl; repeat split; try done. by apply prefix_app_r.
  - destruct e; [by repeat split|].
    destruct (captureProvenance ctx res) as [capture [ce|]]; [|by repeat split].
    destruct res; simpl; repeat split; try done. by apply prefix_app_r.
Qed.

Lemma loadResult_grows (during : list Ctx) (ctx : Ctx) (s : State) :
  grows s (loadResult during ctx s).2
  ∧ evaluations (loadResult during ctx s).2.2 = S (evaluations s.2).
Proof.
  destruct s as [rp w]. unfold loadResult. simpl.
  destruct (Releases_grows during (rp, count_evaluation w))
    as ((Hlog & Hwarn & Hrs & Hborrow & _) & Heval).
  destruct (Releases during (rp, count_evaluation w)) as [rp1 w1]. simpl in *.
  destruct (_ ≫= asExecError) as [[ptr refs]|]; simpl.
  - split; [|done]. unfold grows. simpl.
    repeat split; try done; [by apply prefix_app_r|set_solver|lia].
  - split; [|done]. unfold grows. simpl. repeat split; try done. lia.
Qed.

Lemma Result_with_grows (during before : list Ctx) (ctx : Ctx) (s : State) :
  grows s (Result_with during before ctx s).2
  ∧ (evaluations (Result_with during before ctx s).2.2 ≤ S (evaluations s.2))%nat.
Proof.
  rewrite Result_with_state. unfold Result_callback.
  destruct (released s.1); [split; [apply grows_refl|simpl; lia]|].
  case_bool_decide; [split; [apply grows_refl|simpl; lia]|].
  destruct (loadResult_grows during ctx s) as [Hload Heval].
  destruct (loadResult during ctx s) as [[res e] s1]. simpl in *.
  assert (grows s (Result_store ctx res e (Releases before s1)).2
          ∧ (evaluations (Result_store ctx res e (Releases before s1)).2.2
             ≤ S (evaluations s.2))%nat) as Hstore.
  { destruct (Releases_grows before s1) as [Hbefore Heval'].
    split.
    - eapply grows_trans; [exact Hload|].
      eapply grows_trans; [exact Hbefore|]. apply Result_store_grows.
    - rewrite Result_store_evaluations, Heval', Heval. lia. }
  destruct e as [e|]; [|done].
  destruct (Done ctx && IsCanceled ctx e); [|done].
  split; [done|]. simpl. lia.
Qed.

Lemma count_Result_cons (c : ProxyCall) (cs : list ProxyCall) :
  count_Result (c :: cs) = ((if is_Result c then 1 else 0) + count_Result cs)%nat.
Proof.
  unfold count_Result. destruct (is_Result c) eqn:Hc.
  - by rewrite filter_cons_True.
  - rewrite filter_cons_False; [done|]. by rewrite Hc.
Qed.

(** X5.  The history of a proxy only grows.  Over any sequence of [Result]
    and [Release] calls, overlapping or not, the log of released results and
    the log of warnings are extended, never rewritten; no retained partial
    result is dropped; no mark on an error object is removed; and the
    evaluation runs at most once per [Result] call of the sequence. *)
Theorem proxy_history_grows (cs : list ProxyCall) (s : State) :
  releaseLog s.2 `prefix_of` releaseLog (proxy_calls cs s).2
  ∧ warnLog s.2 `prefix_of` warnLog (proxy_calls cs s).2
  ∧ errResults s.1 `prefix_of` errResults (proxy_calls cs s).1
  ∧ ownerBorrowed s.2 ⊆ ownerBorrowed (proxy_calls cs s).2
  ∧ (evaluations s.2 ≤ evaluations (proxy_calls cs s).2)%nat
  ∧ (evaluations (proxy_calls cs s).2 ≤ evaluations s.2 + count_Result cs)%nat.
Proof.
  assert (grows s (proxy_calls cs s)
          ∧ (evaluations (proxy_calls cs s).2 ≤ evaluations s.2 + count_Result cs)%nat)
    as [(? & ? & ? & ? & ?) ?]; [|done].
  unfold proxy_calls. revert s.
  induction cs as [|c cs IH]; intros s.
  - split; [apply grows_refl|]. unfold count_Result. simpl. lia.
  - rewrite count_Result_cons. cbn [foldl].
    destruct (IH (proxy_call c s)) as [Hrest Hcount].
    destruct c as [during before ctx|ctx]; cbn [proxy_call is_Result] in *.
    + destruct (Result_with_grows during before ctx s) as [Hstep Heval].
      split; [by eapply grows_trans|]. lia.
    + destruct (Release_grows ctx s) as [Hstep Heval].
      split; [by eapply grows_trans|]. lia.
Qed.

(** X6.  [Provenance] changes only on a successful evaluation.  A [Result]
    call leaves the provenance of the proxy as it was unless the proxy was
    neither released nor holding a terminal outcome and the evaluation
    returned a nil error; then the provenance is what [captureProvenance]
    returned for the evaluated result, or is unchanged. *)
Theorem Provenance_set_by_capture (during before : list Ctx) (ctx : Ctx) (s : State) :
  Provenance (Result_with during before ctx s).2.1 = Provenance s.1
  ∨ (released s.1 = false ∧ v s.1 = None ∧ err s.1 = None
     ∧ (evaluate (evaluations s.2) ctx).2 = None
     ∧ Provenance (Result_with during before ctx s).2.1
       = (captureProvenance ctx (evaluate (evaluations s.2) ctx).1).1).
Proof.
  assert (∀ cs s0, provenance (Releases cs s0).1 = provenance s0.1) as Hreleases.
  { intros cs. unfold Releases.
    induction cs as [|c cs IH]; intros [rp w]; simpl; [done|].
    rewrite IH.
    by destruct (Release_effects c rp w) as (_ & _ & _ & _ & _ & _ & _ & -> & _). }
  assert (∀ x y : option Capture, x = y →
            match x with Some c => Some c | None => None end
            = match y with Some c => Some c | None => None end) as Hnil
    by (by intros x y ->).
  unfold Provenance. rewrite Result_with_state. unfold Result_callback.
  destruct (released s.1) eqn:Hrel; [by left|].
  case_bool_decide as Hmemo; [by left|].
  assert (v s.1 = None ∧ err s.1 = None) as [Hv Herr].
  { destruct (v s.1), (err s.1); try done; exfalso; apply Hmemo; eauto. }
  unfold loadResult.
  destruct (evaluate (evaluations s.2) ctx) as [res e] eqn:Heval.
  cbn [fst snd].
  pose proof (Hreleases during (s.1, count_evaluation s.2)) as Hduring.
  destruct (Releases during (s.1, count_evaluation s.2)) as [rp1 w1].
  cbn [fst snd] in Hduring.
  assert (∀ (e0 : error) (s1 : State), provenance s1.1 = provenance s.1 →
            provenance (Result_store ctx res (Some e0) (Releases before s1)).2.1
            = provenance s.1) as Hstore.
  { intros e0 s1 Hs1. pose proof (Hreleases before s1) as Hbefore.
    destruct (Releases before s1) as [rp2 w2]. cbn [fst snd] in *.
    unfold Result_store. destruct (released rp2); cbn; congruence. }
  destruct e as [e|]; cbn [mbind option_bind fst snd].
  - left. apply Hnil.
    destruct (asExecError e) as [[ptr refs]|];
      destruct (Done ctx && IsCanceled ctx e); cbn [fst snd];
      try (by apply Hstore); done.
  - pose proof (Hreleases before (rp1, w1)) as Hbefore.
    destruct (Releases before (rp1, w1)) as [rp2 w2]. cbn [fst snd] in *.
    unfold Result_store.
    destruct (released rp2); [left; apply Hnil; cbn; congruence|].
    destruct (captureProvenance ctx res) as [capture [ce|]] eqn:Hcapture.
    + destruct res; cbn.
      * right. repeat split; try done. by destruct capture.
      * left. apply Hnil. congruence.
    + right. cbn. repeat split; try done. by destruct capture.
Qed.

End resultProxy_calls.

(** ** The error translation at its bounds *)

Lemma index_Returns {A : Type} (s : list A) (i : Z) :
  (∃ a, index s i = Returns a) ↔ (0 ≤ i < Z.of_nat (length s))%Z.
Proof.
  unfold index. destruct (decide (0 ≤ i)%Z) as [Hpos|Hneg].
  - destruct (s !! Z.to_nat i) as [a|] eqn:Hi.
    + apply lookup_lt_Some in Hi. split; [lia|by eexists].
    + apply lookup_ge_None in Hi. split; [by intros [? ?]|lia].
  - split; [by intros [? ?]|lia].
Qed.

Lemma index_not_Blocks {A : Type} (s : list A) (i : Z) : index s i ≠ Blocks.
Proof.
  unfold index. destruct (decide (0 ≤ i)%Z); [|done].
  by destruct (s !! Z.to_nat i).
Qed.

Lemma wrapError_locs_Panics (infos : list SourceInfo) (locs : list Location) (e : error) :
  wrapError_locs infos locs e = Panics
  ↔ Exists (λ loc, (SourceIndex loc < 0
                    ∨ Z.of_nat (length infos) ≤ SourceIndex loc)%Z) locs.
Proof.
  revert e. induction locs as [|loc locs IH]; intros e; simpl.
  - split; [done|]. by intros ?%Exists_nil.
  - rewrite Exists_cons.
    destruct (index infos (SourceIndex loc)) as [info| |] eqn:Hindex.
    + rewrite IH.
      assert (0 ≤ SourceIndex loc < Z.of_nat (length infos))%Z
        by (apply index_Returns; by eexists).
      split; [by right|]. intros [?|?]; [lia|done].
    + split; [|done]. intros _. left.
      destruct (decide (0 ≤ SourceIndex loc < Z.of_nat (length infos))%Z)
        as [Hin|Hout]; [|lia].
      apply index_Returns in Hin as [a Ha]. congruence.
    + by apply index_not_Blocks in Hindex.
Qed.

Lemma wrapError_locs_Returns (infos : list SourceInfo) (locs : list Location)
    (e e' : error) :
  wrapError_locs infos locs e = Returns e' →
  asVertexError e' = asVertexError e
  ∧ asExecError e' = asExecError e
  ∧ is_canceled e' = is_canceled e
  ∧ ∃ added, sources e' = added ++ sources e ∧ length added = length locs.
Proof.
  revert e. induction locs as [|loc locs IH]; intros e; simpl.
  - intros [= <-]. repeat split. by exists [].
  - destruct (index infos (SourceIndex loc)) as [info| |]; [|done..].
    intros Hrest. apply IH in Hrest as (-> & -> & -> & added & -> & <-).
    repeat split. exists (added ++ [mkSource info (LocRanges loc)]).
    rewrite <- app_assoc. split; [done|]. rewrite length_app. simpl. lia.
Qed.

(** X7.  [wrapError] indexes the source infos without a bounds check: for an
    error whose node has recorded locations, it panics exactly when the
    source index of one of them is negative or not below the number of
    infos. *)
Theorem wrapError_panics_iff (rp : resultProxy) (e : error) (def : Definition_)
    (sm : SourceMap) (dgst : Digest) (locs : list Location) :
  req_Definition rp = Some def → Def_Source def = Some sm →
  asVertexError e = Some dgst → Locations sm !! dgst = Some locs →
  wrapError rp (Some e) = Panics
  ↔ Exists (λ loc, (SourceIndex loc < 0
                    ∨ Z.of_nat (length (Infos sm)) ≤ SourceIndex loc)%Z) locs.
Proof.
  intros Hdef Hsrc Hnode Hlocs. unfold wrapError.
  rewrite Hnode, Hdef, Hsrc, Hlocs.
  rewrite <- (wrapError_locs_Panics (Infos sm) locs e).
  by destruct (wrapError_locs (Infos sm) locs e).
Qed.

(** X7, on a node whose only location names source 1 of a single source. *)
Lemma wrapError_panics_iff_witness :
  wrapError (newResultProxy (Some mismapped)) (Some step_failed) = Panics.
Proof.
  apply (wrapError_panics_iff (newResultProxy (Some mismapped)) step_failed mismapped
           (mkSourceMap {[ "sha256:aa" := [mkLocation 1 [line3]] ]} [dockerfile])
           "sha256:aa" [mkLocation 1 [line3]] eq_refl eq_refl eq_refl eq_refl).
  apply Exists_cons_hd. right. simpl. lia.
Defined.

(** X8.  [wrapError] only adds annotations.  It never blocks, it returns a
    nil error only for a nil error, and the error it returns for [e]
    identifies the same graph node and the same execution error as [e], is a
    cancellation exactly when [e] is, and carries the annotations of [e]
    below the ones added, one per recorded location at most. *)
Theorem wrapError_keeps_identity (rp : resultProxy) (e : error) (x : option error) :
  wrapError rp (Some e) = Returns x →
  wrapError rp (Some e) ≠ Blocks
  ∧ ∃ e', x = Some e'
      ∧ asVertexError e' = asVertexError e
      ∧ asExecError e' = asExecError e
      ∧ is_canceled e' = is_canceled e
      ∧ ∃ added, sources e' = added ++ sources e.
Proof.
  intros Hwrap. split; [by rewrite Hwrap|].
  unfold wrapError in Hwrap.
  assert (∃ e', Some e = Some e'
            ∧ asVertexError e' = asVertexError e
            ∧ asExecError e' = asExecError e
            ∧ is_canceled e' = is_canceled e
            ∧ ∃ added, sources e' = added ++ sources e) as Hsame
    by (exists e; repeat split; by exists []).
  destruct (asVertexError e) as [dgst|] eqn:Hnode;
    [|injection Hwrap as <-; exact Hsame].
  destruct (req_Definition rp) as [def|]; [|done].
  destruct (Def_Source def) as [sm|]; [|injection Hwrap as <-; exact Hsame].
  destruct (Locations sm !! dgst) as [locs|]; [|injection Hwrap as <-; exact Hsame].
  destruct (wrapError_locs (Infos sm) locs e) as [e'| |] eqn:Hlocs; [|done..].
  simpl in Hwrap. injection Hwrap as <-.
  apply wrapError_locs_Returns in Hlocs as (Hv & Hx & Hc & added & Hs & _).
  exists e'. rewrite <- Hnode. repeat split; try done. by exists added.
Qed.

(** X8, on the failing node [sha256:aa] of the mapped definition. *)
Lemma wrapError_keeps_identity_witness :
  ∃ e', wrapError (newResultProxy (Some mapped)) (Some step_failed) = Returns (Some e')
        ∧ asVertexError e' = Some "sha256:aa".
Proof.
  destruct (wrapError_keeps_identity (newResultProxy (Some mapped)) step_failed
              (Some (ErrorSource (mkSource dockerfile [line3]) step_failed)) eq_refl)
    as (_ & e' & Hx & Hnode & _).
  exists e'. split; [by rewrite <- Hx|exact Hnode].
Defined.

(** ** The registry beyond successful passes *)

Section registry_more.
Context `{Importers}.

Lemma cmKey_error (im : CacheOptionsEntry) (e : error) :
  (cmKey im).2 = Some e
  ↔ ¬ (Type_ im = "registry" ∧ attr (Attrs im) "ref" ≠ "") ∧ (Hash im).2 = Some e.
Proof.
  unfold cmKey. case_bool_decide as Href; simpl.
  - split; [done|]. by intros [? _].
  - destruct (Hash im) as [i [e'|]]; simpl; split; try done; by intros [_ ?].
Qed.

Lemma loadResult_cm_heap (cmID : string) (im : CacheOptionsEntry) (b : Registry) :
  ∃ fresh,
    heap (loadResult_cm cmID im b).2 = heap b ++ fresh
    ∧ Forall (λ x, x.1 = lcm.newLazyCacheManager (lcm.id x.1)) fresh.
Proof.
  unfold loadResult_cm. destruct (cms b !! cmID); simpl.
  - exists []. by rewrite app_nil_r.
  - eexists. split; [done|]. by repeat constructor.
Qed.

(** The pass over the cache imports keeps the invariant and the bindings,
    whether it succeeds or fails. *)
Lemma loadResult_cms_always (ims : list CacheOptionsEntry) (b : Registry) :
  registry_ok b →
  registry_ok (loadResult_cms ims b).2 ∧ cms b ⊆ cms (loadResult_cms ims b).2.
Proof.
  revert b. induction ims as [|im ims IH]; intros b Hok; simpl; [done|].
  destruct (cmKey im) as [cmID [e|]]; simpl; [done|].
  destruct (loadResult_cm_spec cmID im b Hok) as (Hok1 & _ & Hsub1).
  destruct (loadResult_cm cmID im b) as [cm b1]. simpl in *.
  destruct (IH b1 Hok1) as (Hok2 & Hsub2).
  destruct (loadResult_cms ims b1) as [[hs' e'] b2]. simpl in *.
  split; [done|]. by etrans.
Qed.

(** X9.  The pass over the cache imports keeps the registry consistent
    whether it succeeds or fails: the invariant is preserved, every binding
    and every manager present before is still there, and the managers it
    adds are unresolved.  A failed pass returns no handle, a successful pass
    one handle per import. *)
Theorem loadResult_cms_invariant (ims : list CacheOptionsEntry) (b : Registry) :
  registry_ok b →
  registry_ok (loadResult_cms ims b).2
  ∧ cms b ⊆ cms (loadResult_cms ims b).2
  ∧ (∃ fresh,
       heap (loadResult_cms ims b).2 = heap b ++ fresh
       ∧ Forall (λ x, x.1 = lcm.newLazyCacheManager (lcm.id x.1)) fresh)
  ∧ ((loadResult_cms ims b).1.2 = None →
       length (loadResult_cms ims b).1.1 = length ims)
  ∧ ((loadResult_cms ims b).1.2 ≠ None → (loadResult_cms ims b).1.1 = []).
Proof.
  assert (∃ fresh : list (lcm.lazyCacheManager * CacheOptionsEntry),
            heap b = heap b ++ fresh
            ∧ Forall (λ x, x.1 = lcm.newLazyCacheManager (lcm.id x.1)) fresh) as Hnone
    by (exists []; by rewrite app_nil_r).
  revert b Hnone. induction ims as [|im ims IH]; intros b Hnone Hok; simpl.
  - by repeat (split; [done|]).
  - destruct (cmKey im) as [cmID [e|]]; simpl.
    { by repeat (split; [done|]). }
    destruct (loadResult_cm_spec cmID im b Hok) as (Hok1 & _ & Hsub1).
    destruct (loadResult_cm_heap cmID im b) as (fresh1 & Hheap1 & Hfresh1).
    destruct (loadResult_cm cmID im b) as [cm b1]. simpl in *.
    destruct (IH b1) as (Hok2 & Hsub2 & (fresh2 & Hheap2 & Hfresh2) & Hlen & Hnil);
      [exists []; by rewrite app_nil_r|done|].
    destruct (loadResult_cms ims b1) as [[hs' e'] b2]. simpl in *.
    split; [done|]. split; [by etrans|]. split.
    { exists (fresh1 ++ fresh2). rewrite Hheap2, Hheap1, app_assoc.
      split; [done|]. by apply Forall_app. }
    destruct e' as [e'|]; simpl; split; try done.
    intros _. f_equal. by apply Hlen.
Qed.

Lemma loadResult_cms_bound (ims : list CacheOptionsEntry) (b : Registry) (hs : list nat) :
  Forall2 (λ im p, ∃ k, cmKey im = (k, None) ∧ cms b !! k = Some p) ims hs →
  loadResult_cms ims b = ((hs, None), b).
Proof.
  induction 1 as [|im p ims hs (k & Hkey & Hbound) _ IH]; simpl; [done|].
  rewrite Hkey. unfold loadResult_cm. rewrite Hbound. by rewrite IH.
Qed.

(** X10.  Submitting the same cache imports again changes nothing: after a
    successful pass, a second pass over the same list returns the same
    handles and leaves the registry as it is. *)
Theorem loadResult_cms_idempotent (ims : list CacheOptionsEntry) (b b' : Registry)
    (hs : list nat) :
  registry_ok b →
  loadResult_cms ims b = ((hs, None), b') →
  loadResult_cms ims b' = ((hs, None), b').
Proof.
  intros Hok Hrun.
  destruct (loadResult_cms_spec ims b b' hs Hok Hrun) as (_ & _ & Hall).
  by apply loadResult_cms_bound.
Qed.

(** X11.  Handles follow keys, not entries.  In a successful pass two
    imports with the same key get the same handle; in particular two
    [registry] imports with the same non-empty [ref] share a handle whatever
    their other attributes are.  The handle names an allocated manager whose
    [ID] is that key. *)
Theorem same_key_same_handle (ims : list CacheOptionsEntry) (b b' : Registry)
    (hs : list nat) (i j : nat) (im1 im2 : CacheOptionsEntry) :
  registry_ok b →
  loadResult_cms ims b = ((hs, None), b') →
  ims !! i = Some im1 → ims !! j = Some im2 →
  cmKey im1 = cmKey im2
  ∨ (Type_ im1 = "registry" ∧ Type_ im2 = "registry"
     ∧ attr (Attrs im1) "ref" = attr (Attrs im2) "ref"
     ∧ attr (Attrs im1) "ref" ≠ "") →
  ∃ p l im0,
    hs !! i = Some p ∧ hs !! j = Some p
    ∧ heap b' !! p = Some (l, im0)
    ∧ lazyCacheManager_ID l = (cmKey im1).1.
Proof.
  intros Hok Hrun Hi Hj Hsame.
  assert (cmKey im1 = cmKey im2) as Hkey.
  { destruct Hsame as [|(Ht1 & Ht2 & Href & Hne)]; [done|].
    unfold cmKey. rewrite !bool_decide_true; [by rewrite Href|by rewrite <- Href|done]. }
  destruct (loadResult_cms_spec ims b b' hs Hok Hrun) as ([Hmap _] & _ & Hall).
  destruct (Forall2_lookup_l _ _ _ _ _ Hall Hi) as (p & Hp & k & Hk & Hbound).
  destruct (Forall2_lookup_l _ _ _ _ _ Hall Hj) as (q & Hq & k' & Hk' & Hbound').
  assert (k' = k) as -> by congruence.
  assert (q = p) as -> by congruence.
  destruct (Hmap k p Hbound) as (l & im0 & Hl & Hid).
  exists p, l, im0. repeat split; try done.
  unfold lazyCacheManager_ID. by rewrite Hk.
Qed.

(** X12.  The pass fails exactly on the first import whose key cannot be
    computed, with the error of the hash: it returns error [e] exactly when
    some import that is not a [registry] import with a non-empty [ref] has a
    hash failing with [e] and the keys of all imports before it can be
    computed. *)
Theorem loadResult_cms_first_error (ims : list CacheOptionsEntry) (b : Registry)
    (e : error) :
  (loadResult_cms ims b).1.2 = Some e
  ↔ ∃ i im,
      ims !! i = Some im
      ∧ ¬ (Type_ im = "registry" ∧ attr (Attrs im) "ref" ≠ "")
      ∧ (Hash im).2 = Some e
      ∧ Forall (λ im', (cmKey im').2 = None) (take i ims).
Proof.
  revert b. induction ims as [|im ims IH]; intros b; simpl.
  - split; [done|]. by intros (i & im & ? & _).
  - destruct (cmKey im) as [cmID [e0|]] eqn:Hkey; simpl.
    + split.
      * intros [= ->]. exists 0, im. simpl.
        assert ((cmKey im).2 = Some e) as Herr by by rewrite Hkey.
        apply cmKey_error in Herr as [? ?]. by repeat split.
      * intros ([|i] & im' & Hi & Href & Hhash & Hbefore); simpl in *.
        -- injection Hi as <-.
           assert ((cmKey im).2 = Some e) as Herr by by apply cmKey_error.
           rewrite Hkey in Herr. done.
        -- apply Forall_cons in Hbefore as [Him _]. by rewrite Hkey in Him.
    + destruct (loadResult_cm cmID im b) as [cm b1].
      specialize (IH b1).
      destruct (loadResult_cms ims b1) as [[hs' e'] b2]. simpl in *.
      rewrite IH. split.
      * intros (i & im' & Hi & Href & Hhash & Hbefore).
        exists (S i), im'. simpl. repeat split; try done.
        constructor; [by rewrite Hkey|done].
      * intros ([|i] & im' & Hi & Href & Hhash & Hbefore); simpl in *.
        -- injection Hi as <-.
           assert ((cmKey im).2 = Some e) as Herr by by apply cmKey_error.
           rewrite Hkey in Herr. done.
        -- apply Forall_cons in Hbefore as [_ Hbefore].
           exists i, im'. by repeat split.
Qed.

End registry_more.

(** X9, on the empty registry. *)
Lemma loadResult_cms_invariant_witness :
  registry_ok (@loadResult_cms sized [registry_ref; local_dir] newRegistry).2.
Proof.
  exact (proj1 (@loadResult_cms_invariant sized [registry_ref; local_dir] newRegistry
                  registry_ok_new)).
Defined.

(** X10, on a list naming one registry reference twice. *)
Lemma loadResult_cms_idempotent_witness :
  @loadResult_cms sized [registry_ref; local_dir; registry_ref]
    (@loadResult_cms sized [registry_ref; local_dir; registry_ref] newRegistry).2
  = (([0; 1; 0], None),
     (@loadResult_cms sized [registry_ref; local_dir; registry_ref] newRegistry).2).
Proof.
  exact (@loadResult_cms_idempotent sized [registry_ref; local_dir; registry_ref]
           newRegistry _ [0; 1; 0] registry_ok_new eq_refl).
Defined.

(** X11, on two registry imports of one reference with different modes. *)
Lemma same_key_same_handle_witness :
  ∃ p l im0,
    [0; 0] !! 0 = Some p ∧ [0; 0] !! 1 = Some p
    ∧ heap (@loadResult_cms sized
              [registry_ref;
               mkCacheOptionsEntry "registry"
                 {[ "ref" := "example.com/cache"; "mode" := "max" ]}] newRegistry).2
      !! p = Some (l, im0)
    ∧ lazyCacheManager_ID l = "example.com/cache".
Proof.
  exact (@same_key_same_handle sized
           [registry_ref;
            mkCacheOptionsEntry "registry"
              {[ "ref" := "example.com/cache"; "mode" := "max" ]}]
           newRegistry _ [0; 0] 0 1 _ _ registry_ok_new eq_refl eq_refl eq_refl
           (or_introl eq_refl)).
Defined.

(** ** Lazy cache managers after resolution *)

(** X13.  Once its goroutine has finished, a lazy cache manager made by
    [newLazyCacheManager] never blocks a caller and never holds both a
    manager and an error; its [ID] is the one it was made with.  [Query] and
    [Records] never panic.  [Load], [Save] and [ReleaseUnreferenced] panic
    exactly when the resolution returned neither a manager nor an error, and
    [ReleaseUnreferenced] returns the recorded error of a failed
    resolution. *)
Theorem lazy_manager_resolved (id : string) (fn : option CacheManager * option error) :
  let l := lcm.resolve fn (lcm.newLazyCacheManager id) in
  lazyCacheManager_ID l = id
  ∧ lcm.wait l ≠ Blocks
  ∧ ¬ (is_Some (lcm.main l) ∧ is_Some (lcm.err l))
  ∧ (∀ inp i dgst o, lcm.Query l inp i dgst o ≠ Blocks ∧ lcm.Query l inp i dgst o ≠ Panics)
  ∧ (∀ ck, lcm.Records l ck ≠ Blocks ∧ lcm.Records l ck ≠ Panics)
  ∧ (∀ rec, lcm.Load l rec ≠ Blocks ∧ (lcm.Load l rec = Panics ↔ fn = (None, None)))
  ∧ (∀ key s t, lcm.Save l key s t ≠ Blocks
                ∧ (lcm.Save l key s t = Panics ↔ fn = (None, None)))
  ∧ lcm.ReleaseUnreferenced l ≠ Blocks
  ∧ (lcm.ReleaseUnreferenced l = Panics ↔ fn = (None, None))
  ∧ (∀ e, fn.2 = Some e → lcm.ReleaseUnreferenced l = Returns (Some e)).
Proof.
  destruct fn as [[m|] [e|]]; cbn;
    unfold lazyCacheManager_ID, lcm.Query, lcm.Records, lcm.Load, lcm.Save,
      lcm.ReleaseUnreferenced, lcm.wait; cbn;
    repeat split; try done; try (by intros [[? ?] [? ?]]); by intros ? [= <-].
Qed.

(** X13, on a resolution that failed. *)
Lemma lazy_manager_resolved_witness :
  lcm.ReleaseUnreferenced
    (lcm.resolve (None, Some (Errorf "unknown cache importer: s3"))
       (lcm.newLazyCacheManager "s3:17"))
  = Returns (Some (Errorf "unknown cache importer: s3")).
Proof.
  destruct (lazy_manager_resolved "s3:17"
              (None, Some (Errorf "unknown cache importer: s3")))
    as (_ & _ & _ & _ & _ & _ & _ & _ & _ & Hfailed).
  exact (Hfailed (Errorf "unknown cache importer: s3") eq_refl).
Defined.

(** ** The executor bridge under arbitrary sequences of calls *)

Section executor_calls_proofs.
Context `{Backend}.

(** X14.  The executor is loaded once.  After a call of [loadExecutor] the
    one-time initialisation is done and [resolveWorker] was called at most
    once more; a call on an initialised bridge changes nothing; and when a
    call returned, with an error or without, every later call returns the
    same and calls [resolveWorker] no more. *)
Theorem loadExecutor_cached (b : llbBridge) :
  executorOnce (loadExecutor b).2 = true
  ∧ (resolveWorker_calls (loadExecutor b).2 ≤ S (resolveWorker_calls b))%nat
  ∧ (executorOnce b = true → loadExecutor b = (Returns (executorErr b), b))
  ∧ ∀ e, (loadExecutor b).1 = Returns e →
         loadExecutor (loadExecutor b).2 = (Returns e, (loadExecutor b).2).
Proof.
  destruct b as [once err0 ex0 calls log]. unfold loadExecutor. simpl.
  destruct once; simpl.
  - repeat split; [lia|]. by intros e [= <-].
  - destruct resolveWorker as [w [e0|]]; [|destruct w as [ex|]]; simpl;
      repeat split; try lia; try done; by intros e [= <-].
Qed.

Lemma bridge_call_inv (c : BridgeCall) (b : llbBridge) :
  bridge_inv b →
  bridge_inv (bridge_call c b)
  ∧ executor_calls (bridge_call c b)
    = executor_calls b
      ++ match resolveWorker with (Some _, None) => forwarded [c] | _ => [] end.
Proof.
  unfold bridge_inv, bridge_call, Run, Exec, forwarded, loadExecutor.
  destruct resolveWorker as [[ex|] [e|]]; destruct c as [id p|id p]; simpl;
    destruct (validateEntitlements p); simpl;
    intros [(Honce & Hc & He & Hx)|(Honce & Hc & He & Hx)];
    rewrite Honce; simpl; rewrite ?He, ?Hx; simpl; rewrite ?app_nil_r;
    (split; [|done]); rewrite ?Honce, ?Hc, ?He, ?Hx; auto.
Qed.

Lemma bridge_calls_inv (cs : list BridgeCall) (b : llbBridge) :
  bridge_inv b →
  bridge_inv (bridge_calls cs b)
  ∧ executor_calls (bridge_calls cs b)
    = executor_calls b
      ++ match resolveWorker with (Some _, None) => forwarded cs | _ => [] end.
Proof.
  unfold bridge_calls. revert b.
  induction cs as [|c cs IH]; intros b Hinv; cbn [foldl].
  - split; [done|]. unfold forwarded. simpl.
    destruct resolveWorker as [[ex|] [e|]]; by rewrite app_nil_r.
  - destruct (bridge_call_inv c b Hinv) as (Hinv1 & Hlog1).
    destruct (IH _ Hinv1) as (Hinv2 & Hlog2).
    split; [done|]. rewrite Hlog2, Hlog1, <- app_assoc. f_equal.
    assert (forwarded (c :: cs) = forwarded [c] ++ forwarded cs) as ->.
    { unfold forwarded. change (c :: cs) with ([c] ++ cs). by rewrite omap_app. }
    destruct resolveWorker as [[ex|] [e|]]; done.
Qed.

Lemma bridge_inv_new : bridge_inv newBridge.
Proof. by left. Qed.

(** X15.  On a bridge made by [newBridge] whose worker resolves, the
    executor receives exactly the calls that pass the entitlement
    validation, in the order of the [Run] and [Exec] calls and once each,
    and the worker is resolved at most once whatever the number of calls. *)
Theorem executor_receives_validated_calls (cs : list BridgeCall) (ex : nat) :
  resolveWorker = (Some ex, None) →
  executor_calls (bridge_calls cs newBridge) = forwarded cs
  ∧ (resolveWorker_calls (bridge_calls cs newBridge) ≤ 1)%nat
  ∧ Forall (λ c, validateEntitlements (call_process c) = None)
      (executor_calls (bridge_calls cs newBridge)).
Proof.
  intros Hworker.
  destruct (bridge_calls_inv cs newBridge bridge_inv_new) as (Hinv & Hlog).
  rewrite Hworker in Hlog. simpl in Hlog. rewrite Hlog.
  split; [done|]. split.
  - destruct Hinv as [(_ & -> & _)|(_ & -> & _)]; lia.
  - clear. unfold forwarded. induction cs as [|c cs IH]; [done|].
    change (c :: cs) with ([c] ++ cs). rewrite omap_app. apply Forall_app.
    split; [|done]. simpl.
    destruct c as [id p|id p]; destruct (validateEntitlements p) eqn:Hval; simpl;
      by repeat constructor.
Qed.

(** X16.  A worker that cannot be resolved is not asked again.  On a bridge
    made by [newBridge] whose [resolveWorker] fails with [e], no call ever
    reaches an executor, the worker is resolved at most once, and after any
    sequence of calls [Run] and [Exec] of a process that passes the
    validation return [e]. *)
Theorem worker_failure_is_cached (cs : list BridgeCall) (w : option nat) (e : error) :
  resolveWorker = (w, Some e) →
  executor_calls (bridge_calls cs newBridge) = []
  ∧ (resolveWorker_calls (bridge_calls cs newBridge) ≤ 1)%nat
  ∧ ∀ id p, validateEntitlements p = None →
      (Run id p (bridge_calls cs newBridge)).1 = Returns (None, Some e)
      ∧ (Exec id p (bridge_calls cs newBridge)).1 = Returns (Some e)
      ∧ executor_calls (Run id p (bridge_calls cs newBridge)).2 = []
      ∧ executor_calls (Exec id p (bridge_calls cs newBridge)).2 = [].
Proof.
  intros Hworker.
  destruct (bridge_calls_inv cs newBridge bridge_inv_new) as (Hinv & Hlog).
  unfold bridge_inv in Hinv. rewrite Hworker in Hlog, Hinv. simpl in Hlog, Hinv.
  assert (executor_calls (bridge_calls cs newBridge) = []) as Hnone
    by (rewrite Hlog; by destruct w).
  split; [done|]. split.
  - destruct Hinv as [(_ & -> & _)|(_ & -> & _)]; lia.
  - intros id p Hval. unfold Run, Exec, loadExecutor. rewrite Hval, Hworker.
    destruct Hinv as [(-> & _)|(-> & _ & -> & _)]; by simpl.
Qed.

End executor_calls_proofs.

(** X14, on a worker that cannot be resolved. *)
Lemma loadExecutor_cached_witness :
  @loadExecutor no_worker (@loadExecutor no_worker newBridge).2
  = (Returns (Some (Errorf "no worker")), (@loadExecutor no_worker newBridge).2).
Proof.
  destruct (@loadExecutor_cached no_worker newBridge) as (_ & _ & _ & Hagain).
  exact (Hagain (Some (Errorf "no worker")) eq_refl).
Defined.

(** X15, on a host-network call between two sandboxed calls of a build
    granted nothing. *)
Lemma executor_receives_validated_calls_witness :
  executor_calls
    (@bridge_calls ungranted
       [DoRun "a" sandboxed_process; DoExec "b" host_process; DoExec "c" sandboxed_process]
       newBridge)
  = [CallRun "a" sandboxed_process; CallExec "c" sandboxed_process].
Proof.
  exact (proj1 (@executor_receives_validated_calls ungranted
                  [DoRun "a" sandboxed_process; DoExec "b" host_process;
                   DoExec "c" sandboxed_process] 0 eq_refl)).
Defined.

(** X16, on a worker that cannot be resolved. *)
Lemma worker_failure_is_cached_witness :
  (@Exec no_worker "b" sandboxed_process
     (@bridge_calls no_worker [DoRun "a" sandboxed_process] newBridge)).1
  = Returns (Some (Errorf "no worker")).
Proof.
  destruct (@worker_failure_is_cached no_worker [DoRun "a" sandboxed_process] None
              (Errorf "no worker") eq_refl)
    as (_ & _ & Hcalls).
  exact (proj1 (proj2 (Hcalls "b" sandboxed_process eq_refl))).
Defined.

(** ** [llbBridge.loadResult] *)

Section llbBridge_loadResult_proofs.
Context `{Backend} `{Importers} `{Builder}.

Lemma loadResult_validate_None (pol : list (option Policy)) :
  loadResult_validate pol = None ↔ Forall policy_ok pol.
Proof.
  induction pol as [|[q|] pol IH]; simpl.
  - split; [by constructor|done].
  - destruct (validateSourcePolicy q) as [e|] eqn:Hq.
    + split; [done|]. intros [(q' & [= <-] & Hq') _]%Forall_cons. congruence.
    + rewrite IH. split.
      * intros Hrest. constructor; [by exists q|done].
      * by intros [_ ?]%Forall_cons.
  - split; [done|]. by intros [(q' & ? & _) _]%Forall_cons.
Qed.

Lemma loadResult_validate_Some (pol : list (option Policy)) (e : error) :
  loadResult_validate pol = Some e
  ↔ ∃ i, Forall policy_ok (take i pol)
         ∧ ((pol !! i = Some None ∧ e = Errorf "invalid nil policy")
            ∨ ∃ q, pol !! i = Some (Some q) ∧ validateSourcePolicy q = Some e).
Proof.
  induction pol as [|[q|] pol IH]; simpl.
  - split; [done|]. by intros (i & _ & [[? _]|(q & ? & _)]).
  - destruct (validateSourcePolicy q) as [e0|] eqn:Hq.
    + split.
      * intros [= ->]. exists 0. split; [by constructor|]. right. by exists q.
      * intros ([|i] & Hbefore & Hat); simpl in *.
        -- destruct Hat as [[? _]|(q' & [= <-] & Hq')]; [done|]. congruence.
        -- apply Forall_cons in Hbefore as [(q' & [= <-] & Hq') _]. congruence.
    + rewrite IH. split.
      * intros (i & Hbefore & Hat). exists (S i). simpl.
        split; [|done]. constructor; [by exists q|done].
      * intros ([|i] & Hbefore & Hat); simpl in *.
        -- destruct Hat as [[? _]|(q' & [= <-] & Hq')]; [done|]. congruence.
        -- apply Forall_cons in Hbefore as [_ Hbefore]. by exists i.
  - split.
    + intros [= <-]. exists 0. split; [by constructor|]. by left.
    + intros ([|i] & Hbefore & Hat); simpl in *.
      * destruct Hat as [[_ ->]|(q & ? & _)]; done.
      * by apply Forall_cons in Hbefore as [(q' & ? & _) _].
Qed.

(** X17.  The policy gate of [llbBridge.loadResult].  No engine is made
    exactly when there is neither an ambient policy nor a submitted one.
    The gate fails exactly on the first submitted policy that is nil or
    that the validation rejects, with "invalid nil policy" or the error of
    the validation.  When it succeeds with an engine, every submitted
    policy is accepted by the validation, and the engine holds the ambient
    policy, which is not validated, before the submitted ones in their
    order. *)
Theorem loadResult_polEngine_spec (srcPol : option Policy) (pol : list (option Policy)) :
  (loadResult_polEngine srcPol pol = (None, None) ↔ srcPol = None ∧ pol = [])
  ∧ (∀ e, (loadResult_polEngine srcPol pol).2 = Some e
          ↔ ∃ i, Forall policy_ok (take i pol)
                 ∧ ((pol !! i = Some None ∧ e = Errorf "invalid nil policy")
                    ∨ ∃ q, pol !! i = Some (Some q) ∧ validateSourcePolicy q = Some e))
  ∧ (∀ engine, loadResult_polEngine srcPol pol = (Some engine, None) →
       Forall policy_ok pol
       ∧ engine = match srcPol with Some _ => srcPol :: pol | None => pol end).
Proof.
  unfold loadResult_polEngine. split; [|split].
  - case_bool_decide as Hany.
    + destruct (loadResult_validate pol); split; try done; intros [-> ->];
        destruct Hany as [[? ?]|?]; try done; simpl in *; lia.
    + split; [|done]. intros _.
      destruct srcPol; [exfalso; apply Hany; left; by eexists|].
      destruct pol; [done|]. exfalso. apply Hany. right. simpl. lia.
  - intros e. rewrite <- loadResult_validate_Some.
    case_bool_decide as Hany.
    + by destruct (loadResult_validate pol).
    + simpl. destruct pol; [done|]. exfalso. apply Hany. right. simpl. lia.
  - intros engine. case_bool_decide as Hany; [|done].
    destruct (loadResult_validate pol) eqn:Hval; [done|].
    intros [= <-]. split; [by apply loadResult_validate_None|done].
Qed.

(** X18.  [llbBridge.loadResult] is safe to fail.  Whatever it returns, the
    registry stays consistent and keeps every binding it had, and the logs
    of pruned mounts and of builds are only extended, the build log by at
    most one edge.  A request with an invalid submitted policy changes
    nothing at all.  A build is started only when the worker resolved, the
    entitlements and the ambient policy loaded, every submitted policy was
    accepted and the key of every cache import could be computed. *)
Theorem llbBridge_loadResult_safe (def : option Definition_)
    (ims : list CacheOptionsEntry) (pol : list (option Policy))
    (s : Registry * BuildLog) :
  registry_ok s.1 →
  let r := llbBridge_loadResult def ims pol s in
  registry_ok r.2.1
  ∧ cms s.1 ⊆ cms r.2.1
  ∧ pruneCalls s.2 `prefix_of` pruneCalls r.2.2
  ∧ (∃ edges, buildCalls r.2.2 = buildCalls s.2 ++ edges ∧ (length edges ≤ 1)%nat)
  ∧ (¬ Forall policy_ok pol → r.2 = s)
  ∧ (buildCalls r.2.2 ≠ buildCalls s.2 →
       is_Some resolveWorker.1 ∧ resolveWorker.2 = None
       ∧ loadEntitlements.2 = None ∧ loadSourcePolicy.2 = None
       ∧ Forall policy_ok pol
       ∧ Forall (λ im, (cmKey im).2 = None) ims).
Proof.
  intros Hok r. subst r. destruct s as [b log]. simpl in Hok.
  set (post := λ r : go (option Ref * option error) * (Registry * BuildLog),
         registry_ok r.2.1
         ∧ cms b ⊆ cms r.2.1
         ∧ pruneCalls log `prefix_of` pruneCalls r.2.2
         ∧ (∃ edges, buildCalls r.2.2 = buildCalls log ++ edges
                     ∧ (length edges ≤ 1)%nat)
         ∧ (¬ Forall policy_ok pol → r.2 = (b, log))
         ∧ (buildCalls r.2.2 ≠ buildCalls log →
              is_Some resolveWorker.1 ∧ resolveWorker.2 = None
              ∧ loadEntitlements.2 = None ∧ loadSourcePolicy.2 = None
              ∧ Forall policy_ok pol
              ∧ Forall (λ im, (cmKey im).2 = None) ims)).
  change (post (llbBridge_loadResult def ims pol (b, log))).
  assert (∃ edges : list Edge, buildCalls log = buildCalls log ++ edges
                               ∧ (length edges ≤ 1)%nat) as Hnone
    by (exists []; rewrite app_nil_r; split; [done|simpl; lia]).
  assert (∀ out, post (out, (b, log))) as Hsame.
  { intros out. unfold post. simpl.
    split; [done|]. split; [done|]. split; [done|]. split; [done|]. by split. }
  unfold llbBridge_loadResult.
  destruct resolveWorker as [w [e|]] eqn:Hw; [apply Hsame|].
  destruct loadEntitlements as [ent [e|]] eqn:Hent; [apply Hsame|].
  destruct loadSourcePolicy as [srcPol [e|]] eqn:HsrcPol; [apply Hsame|].
  destruct (loadResult_polEngine srcPol pol) as [polEngine [e|]] eqn:Hgate;
    [apply Hsame|].
  assert (Forall policy_ok pol) as Hvalid.
  { apply loadResult_validate_None.
    unfold loadResult_polEngine in Hgate.
    case_bool_decide as Hany.
    - by destruct (loadResult_validate pol).
    - destruct pol; [done|]. exfalso. apply Hany. right. simpl. lia. }
  cbn [fst snd].
  destruct (loadResult_cms_always ims b Hok) as (Hok1 & Hsub).
  pose proof (loadResult_cms_succeeds ims b) as Hkeys.
  destruct (loadResult_cms ims b) as [[hs e] b1]. cbn [fst snd] in *.
  assert (∀ out prunes, post (out, (b1, mkBuildLog (pruneCalls log ++ prunes)
                                           (buildCalls log)))) as Hnobuild.
  { intros out prunes. unfold post. cbn [fst snd pruneCalls buildCalls].
    split; [done|]. split; [done|]. split; [by apply prefix_app_r|].
    split; [done|]. by split. }
  assert (∀ out, post (out, (b1, log))) as Hnothing.
  { intros out. unfold post. cbn [fst snd].
    split; [done|]. split; [done|]. split; [done|]. split; [done|]. by split. }
  destruct e as [e|]; [apply Hnothing|].
  destruct w as [w|]; [|apply Hnothing].
  destruct (Load def polEngine ent hs) as [[edge [e|]] ids]; [apply Hnothing|].
  assert (Forall (λ im, (cmKey im).2 = None) ims) as Hallkeys by by apply Hkeys.
  assert (∀ out prunes, post (out, (b1, mkBuildLog (pruneCalls log ++ prunes)
                                           (buildCalls log ++ [edge])))) as Hbuild.
  { intros out prunes. unfold post. cbn [fst snd pruneCalls buildCalls].
    split; [done|]. split; [done|]. split; [by apply prefix_app_r|].
    split; [exists [edge]; split; [done|simpl; lia]|]. split; [done|].
    intros _. split; [by eexists|]. done. }
  assert (∀ out, post (out, (b1, mkBuildLog (pruneCalls log)
                                    (buildCalls log ++ [edge])))) as Hbuild'.
  { intros out. unfold post. cbn [fst snd pruneCalls buildCalls].
    split; [done|]. split; [done|]. split; [done|].
    split; [exists [edge]; split; [done|simpl; lia]|]. split; [done|].
    intros _. split; [by eexists|]. done. }
  case_bool_decide as Hids.
  - destruct (PruneCacheMounts ids) as [e|]; [apply Hnobuild|].
    cbn [pruneCalls buildCalls]. destruct (Build edge) as [res [e|]]; apply Hbuild.
  - destruct (Build edge) as [res [e|]]; apply Hbuild'.
Qed.

End llbBridge_loadResult_proofs.

(** X17, on an ambient policy 9 and one submitted policy 1. *)
Lemma loadResult_polEngine_spec_witness :
  Forall (@policy_ok simple_builder) [Some 1]
  ∧ @loadResult_polEngine simple_builder (Some 9) [Some 1]
    = (Some [Some 9; Some 1], None).
Proof.
  destruct (@loadResult_polEngine_spec simple_builder (Some 9) [Some 1])
    as (_ & _ & Hengine).
  destruct (Hengine [Some 9; Some 1] eq_refl) as [Hvalid _].
  split; [exact Hvalid|reflexivity].
Defined.

(** X18, on a request with a nil policy submitted to an empty registry. *)
Lemma llbBridge_loadResult_safe_witness :
  (@llbBridge_loadResult ungranted sized simple_builder None [registry_ref] [None]
     (newRegistry, newBuildLog)).2
  = (newRegistry, newBuildLog).
Proof.
  destruct (@llbBridge_loadResult_safe ungranted sized simple_builder None
              [registry_ref] [None] (newRegistry, newBuildLog) registry_ok_new)
    as (_ & _ & _ & _ & Hinvalid & _).
  apply Hinvalid. intros [(q & Hq & _) _]%Forall_cons. discriminate Hq.
Defined.

(** ** [llbBridge.ResolveSourceMetadata] *)

Section ResolveSourceMetadata_proofs.
Context `{Backend} `{Builder} `{SourceResolver}.

(** X19.  Policies are applied before the worker is asked and are not
    passed on.  With the worker resolved and the ambient policy loaded, the
    policies evaluated are the submitted ones followed by the ambient one.
    When they reject the operation, the call fails with "could not resolve
    image due to policy" whatever the worker would answer.  Otherwise, when
    [inBuilderContext] runs its callback and returns its outcome, the call
    returns what the worker answers for the operation as the policies left
    it and for options that carry no source policy, the platform of the
    caller and a log name that is never empty: the caller's, or one made of
    the identifier of the operation. *)
Theorem ResolveSourceMetadata_policy_first (op : SourceOp) (opt : Opt) (w : nat)
    (pol : option Policy) :
  resolveWorker = (Some w, None) →
  loadSourcePolicy = (pol, None) →
  let pols := SourcePolicies opt ++ match pol with Some _ => [pol] | None => [] end in
  let opt' :=
    mkOpt (if bool_decide (LogName opt = "")
           then "resolve image config for " +:+ Identifier op else LogName opt)
      [] (opt_Platform opt) in
  LogName opt' ≠ ""
  ∧ (∀ e, (Evaluate pols op).2 = Some e →
       ResolveSourceMetadata (Some op) opt
       = Returns (None, Some (Wrap e "could not resolve image due to policy")))
  ∧ ((Evaluate pols op).2 = None →
     (∀ name id f, inBuilderContext name id f = f) →
     ResolveSourceMetadata (Some op) opt
     = match worker_ResolveSourceMetadata (Evaluate pols op).1 opt' with
       | (_, Some e) => Returns (None, Some e)
       | (resp, None) => Returns (resp, None)
       end).
Proof.
  intros Hworker Hpolicy pols opt'. subst pols opt'.
  split; [by case_bool_decide|].
  unfold ResolveSourceMetadata, ResolveSourceMetadata_callback.
  rewrite Hworker, Hpolicy.
  destruct pol as [p|]; case_bool_decide; simpl; rewrite ?app_nil_r;
    (split;
     [intros e He; destruct (Evaluate _ op) as [op' e']; simpl in He; by rewrite He
     |intros He Hrun; destruct (Evaluate _ op) as [op' e']; simpl in *;
      rewrite He, Hrun; by destruct (worker_ResolveSourceMetadata _ _) as [? [?|]]]).
Qed.

End ResolveSourceMetadata_proofs.

(** X19, on a resolver that rejects nothing and runs the callback once. *)
Lemma ResolveSourceMetadata_policy_first_witness :
  @ResolveSourceMetadata ungranted simple_builder simple_resolver
    (Some (mkSourceOp "docker-image://alpine" ∅)) (mkOpt "" [] None)
  = Returns (Some 3, None).
Proof.
  destruct (@ResolveSourceMetadata_policy_first ungranted simple_builder simple_resolver
              (mkSourceOp "docker-image://alpine" ∅) (mkOpt "" [] None) 0 (Some 9)
              eq_refl eq_refl)
    as (_ & _ & Hforward).
  exact (Hforward eq_refl (λ _ _ f, eq_refl)).
Defined.

(** ** Witnesses for the result proxy *)

(** X1, on a build that fails at a step. *)
Lemma Result_failure_memoized_witness :
  @Results failed_step [ctx_live; ctx_canceled] (@Result failed_step ctx_live fresh).2
  = ([(@Result failed_step ctx_live fresh).1; (@Result failed_step ctx_live fresh).1],
     (@Result failed_step ctx_live fresh).2).
Proof.
  destruct (@Result_failure_memoized failed_step ctx_live fresh None
              (VertexError "sha256:aa" (ExecError 0 [7; 8] (Errorf "exit code: 1")))
              eq_refl eq_refl eq_refl eq_refl eq_refl)
    as (_ & _ & Hlater).
  exact (Hlater [ctx_live; ctx_canceled]).
Defined.

(** X2, on a build whose provenance cannot be captured. *)
Lemma Result_capture_failure_witness :
  ∃ e', (@Result capture_fails ctx_live fresh).1 = Returns (None, Some e')
        ∧ releaseLog (@Result capture_fails ctx_live fresh).2.2 = [1]
        ∧ @released_by capture_fails ctx_live (@Result capture_fails ctx_live fresh).2 = [].
Proof.
  destruct (@Result_capture_failure capture_fails ctx_live fresh 1 None
              (Errorf "no provenance") eq_refl eq_refl eq_refl eq_refl eq_refl)
    as (e' & Hout & Hlog & _ & _ & _ & Hrelease & _).
  exists e'. split; [exact Hout|]. split; [exact Hlog|exact (Hrelease ctx_live)].
Defined.

(** X3, on a fresh proxy released at once. *)
Lemma released_is_permanent_witness :
  released
    (@proxy_calls built [CallResult [] [] ctx_live; CallRelease ctx_live]
       (@Release built ctx_live fresh).2).1 = true
  ∧ evaluations
      (@proxy_calls built [CallResult [] [] ctx_live; CallRelease ctx_live]
         (@Release built ctx_live fresh).2).2 = 0.
Proof.
  destruct (@released_is_permanent built
              [CallResult [] [] ctx_live; CallRelease ctx_live]
              (@Release built ctx_live fresh).2 eq_refl)
    as (Hrel & Heval & _).
  split; [exact Hrel|exact Heval].
Defined.

(** X4, on a proxy holding result 1. *)
Lemma terminal_outcome_is_final_witness :
  v (@proxy_calls built [CallRelease ctx_live; CallResult [] [] ctx_live]
       (@Result built ctx_live fresh).2).1 = Some 1
  ∧ evaluations
      (@proxy_calls built [CallRelease ctx_live; CallResult [] [] ctx_live]
         (@Result built ctx_live fresh).2).2 = 1.
Proof.
  destruct (@terminal_outcome_is_final built
              [CallRelease ctx_live; CallResult [] [] ctx_live]
              (@Result built ctx_live fresh).2 (or_introl (ex_intro _ 1 eq_refl)))
    as (Hv & _ & _ & _ & Heval).
  split; [exact Hv|exact Heval].
Defined.

(** ** A proxy released during its evaluation *)

Section released_during_evaluation.
Context `{Collaborators}.

#[local] Arguments Result_store : simpl never.
#[local] Arguments Releases : simpl never.
#[local] Arguments Release : simpl never.

(** X20.  [Result] never sets [released]; when a [Result] call that ran the
    evaluation ends on a released proxy, a [Release] of another goroutine
    overlapped it.  Unless the evaluation took the cancellation path, the
    call then returns the error "evaluating released result" and no result,
    stores no terminal outcome, and the result the evaluation produced, if
    any, is the last result released. *)
Theorem Result_released_while_evaluating (during before : list Ctx) (ctx : Ctx)
    (s : State) (res : option Ref) (e : option error) :
  released s.1 = false → v s.1 = None → err s.1 = None →
  evaluate (evaluations s.2) ctx = (res, e) →
  (∀ e', e = Some e' → Done ctx && IsCanceled ctx e' = false) →
  released (Result_with during before ctx s).2.1 = true →
  (Result_with during before ctx s).1
  = Returns (None, Some (Errorf "evaluating released result"))
  ∧ v (Result_with during before ctx s).2.1 = None
  ∧ err (Result_with during before ctx s).2.1 = None
  ∧ ∀ r, res = Some r → last (releaseLog (Result_with during before ctx s).2.2) = Some r.
Proof.
  intros Hrel Hv Herr Heval Hlive.
  unfold Result_with, Result_callback. rewrite Hrel, Hv, Herr.
  rewrite bool_decide_false by (by intros [[? ?]|[? ?]]).
  assert (∃ s1, loadResult during ctx s = ((res, e), s1)
                ∧ v s1.1 = None ∧ err s1.1 = None) as (s1 & -> & Hv1 & Herr1).
  { unfold loadResult. rewrite Heval. cbn [fst snd].
    destruct (Releases_preserves during (s.1, count_evaluation s.2))
      as (Hvd & Herrd & _).
    destruct (Releases during (s.1, count_evaluation s.2)) as [rpd wd].
    cbn [fst snd] in *.
    destruct (e ≫= asExecError) as [[ptr refs]|]; eexists; (split; [done|]);
      cbn; by rewrite Hvd, Herrd, Hv, Herr. }
  assert (∀ out, (match e with
                  | Some e' =>
                      if Done ctx && IsCanceled ctx e' then (Returns (res, e), s1)
                      else out
                  | None => out
                  end : go (option Ref * option error) * State) = out) as ->.
  { intros out. destruct e as [e'|]; [|done]. by rewrite (Hlive e' eq_refl). }
  destruct (Releases_preserves before s1) as (Hvb & Herrb & _).
  destruct (Releases before s1) as [rp2 w2]. cbn [fst snd] in *.
  unfold Result_store.
  destruct (released rp2) eqn:Hrel2.
  - intros _. cbn. rewrite Hvb, Herrb, Hv1, Herr1.
    repeat split. intros r ->. cbn. by rewrite last_snoc.
  - destruct e as [e'|].
    + cbn. by rewrite Hrel2.
    + destruct (captureProvenance ctx res) as [capture [ce|]].
      * destruct res; cbn; by rewrite Hrel2.
      * cbn. by rewrite Hrel2.
Qed.

End released_during_evaluation.

(** X20, on a build released while it runs. *)
Lemma Result_released_while_evaluating_witness :
  (@Result_with built [ctx_live] [] ctx_live fresh).1
  = Returns (None, Some (Errorf "evaluating released result"))
  ∧ last (releaseLog (@Result_with built [ctx_live] [] ctx_live fresh).2.2) = Some 1.
Proof.
  destruct (@Result_released_while_evaluating built [ctx_live] [] ctx_live fresh
              (Some 1) None eq_refl eq_refl eq_refl eq_refl)
    as (Hout & _ & _ & Hlast).
  - intros e' He'. discriminate He'.
  - reflexivity.
  - split; [exact Hout|exact (Hlast 1 eq_refl)].
Defined.
